(** * Music recommender: ingestion, graph construction and hybrid retrieval

    A shallow embedding of three pipeline scripts

      - [scripts/01_load_mongodb.py]  (row normaliser, batch loader),
      - [scripts/02_load_neo4j.py]    (graph builder),
      - [scripts/04_cross_data.py]    (hybrid recommender),

    together with the parts of the two stores (MongoDB, Neo4j) that the
    scripts drive: unordered [insert_many], the aggregation stages
    [$match]/[$sort]/[$limit]/[$project], and the Cypher clauses
    [UNWIND]/[MERGE]/[SET]/[MATCH]/[WHERE]/[WITH]/[ORDER BY]/[LIMIT]. *)

From Stdlib Require Import ZArith Ascii DecimalString Lia.
From stdpp Require Import base list sets strings sorting.

Local Open Scope nat_scope.
#[local] Set Warnings "-clear-no-such-hyp".

(** ** Python values and strings *)

(** A Python [str] is modelled as a [string] whose characters are the code
    points of the text (the model covers code points below 256). *)
Module Py.

(** [str.isspace] on one code point: TAB, LF, VT, FF, CR, the separators
    FS, GS, RS, US, SPACE, NEL and NBSP. *)
Definition isspace (c : ascii) : bool :=
  match c with
  | "009" | "010" | "011" | "012" | "013"
  | "028" | "029" | "030" | "031" | " "
  | "133" | "160" => true
  | _ => false
  end%char.

Fixpoint lstrip (s : string) : string :=
  match s with
  | EmptyString => EmptyString
  | String c s' => if isspace c then lstrip s' else s
  end.

Fixpoint rstrip (s : string) : string :=
  match s with
  | EmptyString => EmptyString
  | String c s' =>
      match rstrip s' with
      | EmptyString => if isspace c then EmptyString else String c EmptyString
      | r => String c r
      end
  end.

(** [s.strip()] *)
Definition strip (s : string) : string := rstrip (lstrip s).

(** [s.split(sep)] for a one-character separator: always at least one
    piece, empty pieces are kept. *)
Fixpoint split (sep : ascii) (s : string) : list string :=
  match s with
  | EmptyString => [EmptyString]
  | String c s' =>
      if Ascii.eqb c sep then EmptyString :: split sep s'
      else match split sep s' with
           | t :: ts => String c t :: ts
           | [] => [String c EmptyString]
           end
  end.

(** [sep.join(ts)] *)
Fixpoint join (sep : ascii) (ts : list string) : string :=
  match ts with
  | [] => EmptyString
  | [t] => t
  | t :: ts' => t +:+ String sep (join sep ts')
  end.

(** Truth value of a [str]: the empty string is falsy. *)
Definition truthy (s : string) : bool :=
  match s with EmptyString => false | _ => true end.

Fixpoint contains (c : ascii) (s : string) : bool :=
  match s with
  | EmptyString => false
  | String d s' => Ascii.eqb d c || contains c s'
  end.

(** A float is either NaN or a number; of a number only the text that
    [str] prints for it matters here. *)
Inductive float := FNan | FNum (repr : string).

Definition isnan (f : float) : bool :=
  match f with FNan => true | FNum _ => false end.

(** The scalar values a CSV cell or a stored document field can hold. *)
Inductive value :=
| VNone
| VBool (b : bool)
| VInt (z : Z)
| VFloat (f : float)
| VStr (s : string).

(** [str(value)] *)
Definition str (v : value) : string :=
  match v with
  | VNone => "None"
  | VBool true => "True"
  | VBool false => "False"
  | VInt z => NilZero.string_of_int (Z.to_int z)
  | VFloat FNan => "nan"
  | VFloat (FNum repr) => repr
  | VStr s => s
  end.

End Py.

(** ** Row Normalizer ([01_load_mongodb.py], [transform_row_to_document]) *)

Module Normalizer.

(** [[a.strip() for a in artists_str.split(',') if a.strip()]] *)
Definition split_artists (artists_str : string) : list string :=
  Py.strip <$> filter (λ a, Py.truthy (Py.strip a) = true) (Py.split "," artists_str).

(** [artists_str = str(row.get('artists', ''))]; the cell is [None] when
    the row has no such column. *)
Definition artists_str (cell : option Py.value) : string :=
  Py.str (default (Py.VStr "") cell).

Definition artist_list (cell : option Py.value) : list string :=
  split_artists (artists_str cell).

End Normalizer.

(** ** Document Store: the [tracks] collection *)

Module Mongo.

(** The document built by [transform_row_to_document]. *)
Record document := {
  track_id : string;
  track_name : string;
  artists : string;
  artist_list : list string;
  album_name : string;
  track_genre : string;
  popularity : Z;
  duration_ms : Z;
  explicit : bool;
  audio_features : list (string * Py.value)
}.

(** A collection: its documents in insertion order, whether the unique
    index [track_id_unique] exists, and the collection's validation rule
    (every document passes when the collection has none). *)
Record collection := {
  docs : list document;
  track_id_unique : bool;
  validator : document → bool
}.

(** Server error codes of a rejected write. *)
Definition DuplicateKey : Z := 11000.
Definition DocumentValidationFailure : Z := 121.

Record write_error := { index : nat; code : Z }.

(** [e.details] of a [BulkWriteError]. *)
Record details := { nInserted : nat; writeErrors : list write_error }.

Inductive insert_many_result :=
| InsertManyResult (inserted_ids : list nat)
| BulkWriteError (e : details)
| TypeError.

(** One write: the validation rule is checked first, then the unique
    index; an accepted document goes to the end of the collection. *)
Definition write_one (c : collection) (d : document) : collection + Z :=
  if negb (validator c d) then inr DocumentValidationFailure
  else if track_id_unique c && bool_decide (track_id d ∈ track_id <$> docs c)
  then inr DuplicateKey
  else inl {| docs := docs c ++ [d];
              track_id_unique := track_id_unique c;
              validator := validator c |}.

(** The writes of [insert_many(documents, ordered=False)]: every document
    is attempted, a rejected one is recorded with its position in the
    batch and the rest go on. *)
Fixpoint write_unordered (c : collection) (i : nat) (documents : list document)
  : collection * (list nat * list write_error) :=
  match documents with
  | [] => (c, ([], []))
  | d :: rest =>
      match write_one c d with
      | inl c' =>
          let '(c'', (ids, errs)) := write_unordered c' (S i) rest in
          (c'', (length (docs c) :: ids, errs))
      | inr e =>
          let '(c'', (ids, errs)) := write_unordered c (S i) rest in
          (c'', (ids, {| index := i; code := e |} :: errs))
      end
  end.

(** [collection.insert_many(documents, ordered=False)]: an empty batch is
    refused by the driver; write errors are raised together, after all
    writes, as one [BulkWriteError]. *)
Definition insert_many (c : collection) (documents : list document)
  : collection * insert_many_result :=
  match documents with
  | [] => (c, TypeError)
  | _ =>
      let '(c', (ids, errs)) := write_unordered c 0 documents in
      match errs with
      | [] => (c', InsertManyResult ids)
      | _ => (c', BulkWriteError {| nInserted := length ids; writeErrors := errs |})
      end
  end.

(** The document that the [$project] stage of the recommender keeps. *)
Record song := {
  s_track_name : string;
  s_artists : string;
  s_popularity : Z;
  s_track_genre : string
}.

Definition project (d : document) : song :=
  {| s_track_name := track_name d;
     s_artists := artists d;
     s_popularity := popularity d;
     s_track_genre := track_genre d |}.

(** [{"$sort": {"popularity": -1}}]: the order of [x] before [y]. *)
Definition by_popularity_desc (x y : document) : Prop :=
  (popularity y ≤ popularity x)%Z.

#[global] Instance by_popularity_desc_dec x y : Decision (by_popularity_desc x y).
Proof. unfold by_popularity_desc. apply _. Defined.

End Mongo.

(** ** Batch Loader ([01_load_mongodb.py]) *)

Module Loader.

Definition BATCH_SIZE : nat := 1000.

(** What a call does: return a value, or let an exception escape. *)
Inductive outcome (A : Type) :=
| Returned (a : A)
| Raised.
Arguments Returned {A} a.
Arguments Raised {A}.

(** [insert_documents_batch]: returns [(inserted_count, duplicate_count)];
    only [BulkWriteError] is caught. *)
Definition insert_documents_batch (c : Mongo.collection) (documents : list Mongo.document)
  : Mongo.collection * outcome (nat * nat) :=
  match Mongo.insert_many c documents with
  | (c', Mongo.InsertManyResult inserted_ids) =>
      (c', Returned (length inserted_ids, 0))
  | (c', Mongo.BulkWriteError e) =>
      let inserted_count := Mongo.nInserted e in
      let duplicate_count := length (Mongo.writeErrors e) in
      (c', Returned (inserted_count, duplicate_count))
  | (c', Mongo.TypeError) => (c', Raised)
  end.

(** [range(0, n, BATCH_SIZE)] *)
Definition batch_starts (n : nat) : list nat :=
  (λ k, k * BATCH_SIZE) <$> seq 0 ((n + BATCH_SIZE - 1) / BATCH_SIZE).

(** The insertion loop of [main] over the transformed rows [df]: the
    state is the collection with the two running totals. *)
Definition load_step (df : list Mongo.document)
    (st : outcome (Mongo.collection * nat * nat)) (i : nat)
  : outcome (Mongo.collection * nat * nat) :=
  match st with
  | Raised => Raised
  | Returned (c, total_inserted, total_duplicates) =>
      let documents := take BATCH_SIZE (drop i df) in
      match insert_documents_batch c documents with
      | (c', Returned (inserted, duplicates)) =>
          Returned (c', total_inserted + inserted, total_duplicates + duplicates)
      | (_, Raised) => Raised
      end
  end.

Definition load (c : Mongo.collection) (df : list Mongo.document)
  : outcome (Mongo.collection * nat * nat) :=
  foldl (load_step df) (Returned (c, 0, 0)) (batch_starts (length df)).

End Loader.

(** ** Graph Store: a property graph and the Cypher clauses used on it *)

Module Neo.

(** The three kinds of node, each with the properties the builder gives
    it.  A [Song] without [track_name] has that property unset. *)
Inductive node :=
| Song (track_id : string) (track_name : option string)
| Artist (name : string)
| Genre (name : string).

Inductive rel_type := BY_ARTIST | IN_GENRE | PLAYS_GENRE.

#[global] Instance node_eq_dec : EqDecision node.
Proof. solve_decision. Defined.
#[global] Instance rel_type_eq_dec : EqDecision rel_type.
Proof. solve_decision. Defined.

(** A node is identified by its position in [nodes]; a relationship
    joins two such identities.  Nothing is ever deleted, so identities
    are stable. *)
Record rel := { src : nat; rtype : rel_type; dst : nat }.

#[global] Instance rel_eq_dec : EqDecision rel.
Proof. solve_decision. Defined.

Record graph := { nodes : list node; rels : list rel }.

Definition empty : graph := {| nodes := []; rels := [] |}.

(** A node pattern [(:Label {key: value})] is written as the node that
    has the label and the key property and nothing else; a node matches
    it when it agrees with it on the label and the key. *)
Definition key_of (n : node) : node :=
  match n with
  | Song track_id _ => Song track_id None
  | other => other
  end.

Definition matches (pattern n : node) : bool :=
  bool_decide (key_of n = pattern).

(** The identities of the nodes of [ns] matching [pattern], where the
    first node of [ns] has identity [i]. *)
Fixpoint find_from (pattern : node) (i : nat) (ns : list node) : list nat :=
  match ns with
  | [] => []
  | n :: ns' =>
      if matches pattern n then i :: find_from pattern (S i) ns'
      else find_from pattern (S i) ns'
  end.

Definition find_nodes (pattern : node) (g : graph) : list nat :=
  find_from pattern 0 (nodes g).

(** [MERGE (v:Label {key: value})] for one incoming record: bind [v] to
    every matching node, or create the node when there is none. *)
Definition merge_node (pattern : node) (g : graph) : graph * list nat :=
  match find_nodes pattern g with
  | [] => ({| nodes := nodes g ++ [pattern]; rels := rels g |}, [length (nodes g)])
  | ids => (g, ids)
  end.

(** The clause over a table of records, in order; each record sees the
    nodes created for the records before it.  [pattern] reads the pattern
    off a record and [bind] extends the record with the bound node. *)
Fixpoint merge_nodes {A B} (pattern : A → node) (bind : A → nat → B)
    (g : graph) (table : list A) : graph * list B :=
  match table with
  | [] => (g, [])
  | a :: table' =>
      let '(g1, ids) := merge_node (pattern a) g in
      let '(g2, out) := merge_nodes pattern bind g1 table' in
      (g2, (bind a <$> ids) ++ out)
  end.

(** [MERGE (x)-[:T]->(y)] for one record with [x], [y] bound: one output
    record per existing relationship, or create it when there is none. *)
Definition merge_rel (r : rel) (g : graph) : graph * nat :=
  match length (filter (λ r', r' = r) (rels g)) with
  | 0 => ({| nodes := nodes g; rels := rels g ++ [r] |}, 1)
  | k => (g, k)
  end.

Fixpoint merge_rels {A} (edge : A → rel) (g : graph) (table : list A)
  : graph * list A :=
  match table with
  | [] => (g, [])
  | a :: table' =>
      let '(g1, k) := merge_rel (edge a) g in
      let '(g2, out) := merge_rels edge g1 table' in
      (g2, replicate k a ++ out)
  end.

(** [SET song.track_name = value] on the node with identity [id]; a
    [None] value unsets the property. *)
Definition set_track_name (value : option string) (n : node) : node :=
  match n with
  | Song track_id _ => Song track_id value
  | other => other
  end.

Definition set_track_names {A} (song : A → nat) (value : A → option string)
    (g : graph) (table : list A) : graph :=
  foldl (λ g a, {| nodes := alter (set_track_name (value a)) (song a) (nodes g);
                   rels := rels g |}) g table.

End Neo.

(** ** Graph Builder ([02_load_neo4j.py]) *)

Module Builder.

Definition BATCH_SIZE : nat := 500.

(** [clean_value]: [None] for [None], for NaN and for text that is empty
    once stripped. *)
Definition clean_value (value : Py.value) : option string :=
  match value with
  | Py.VNone => None
  | Py.VFloat f =>
      if Py.isnan f then None
      else let value := Py.strip (Py.str (Py.VFloat f)) in
           if Py.truthy value then Some value else None
  | _ =>
      let value := Py.strip (Py.str value) in
      if Py.truthy value then Some value else None
  end.

(** [not x] for the result of [clean_value]. *)
Definition falsy (x : option string) : bool :=
  match x with
  | None => true
  | Some s => negb (Py.truthy s)
  end.

(** A document as the cursor yields it, projected to the four fields; a
    field is [None] when the document does not have it. *)
Record doc := {
  d_track_id : option Py.value;
  d_track_name : option Py.value;
  d_artist_list : option (list Py.value);
  d_track_genre : option Py.value
}.

(** [doc.get(key)] *)
Definition get (field : option Py.value) : Py.value := default Py.VNone field.

(** One element of [$rows]. *)
Record row := {
  track_id : string;
  track_name : option string;
  artist : string;
  genre : string
}.

(** The bindings of a record of [insert_batch]'s query, once [song],
    [artist] and [genre] are bound. *)
Definition b_row (b : row * nat * nat * nat) : row := b.1.1.1.
Definition b_song (b : row * nat * nat * nat) : nat := b.1.1.2.
Definition b_artist (b : row * nat * nat * nat) : nat := b.1.2.
Definition b_genre (b : row * nat * nat * nat) : nat := b.2.

(** The node patterns and the relationships of the query, read off a
    record. *)
Definition song_node (r : row) : Neo.node := Neo.Song (track_id r) None.
Definition artist_node (r : row) : Neo.node := Neo.Artist (artist r).
Definition genre_node (r : row) : Neo.node := Neo.Genre (genre r).

Definition by_artist (b : row * nat * nat * nat) : Neo.rel :=
  {| Neo.src := b_song b; Neo.rtype := Neo.BY_ARTIST; Neo.dst := b_artist b |}.
Definition in_genre (b : row * nat * nat * nat) : Neo.rel :=
  {| Neo.src := b_song b; Neo.rtype := Neo.IN_GENRE; Neo.dst := b_genre b |}.
Definition plays_genre (b : row * nat * nat * nat) : Neo.rel :=
  {| Neo.src := b_artist b; Neo.rtype := Neo.PLAYS_GENRE; Neo.dst := b_genre b |}.

(** [insert_batch]: the query, clause by clause. *)
Definition insert_batch (g : Neo.graph) (batch : list row) : Neo.graph :=
  (* UNWIND $rows AS row
     MERGE (song:Song {track_id: row.track_id}) *)
  let '(g, t) := Neo.merge_nodes song_node pair g batch in
  (* SET song.track_name = row.track_name *)
  let g := Neo.set_track_names snd (λ b, track_name b.1) g t in
  (* MERGE (artist:Artist {name: row.artist}) *)
  let '(g, t) := Neo.merge_nodes (λ b, artist_node b.1) pair g t in
  (* MERGE (genre:Genre {name: row.genre}) *)
  let '(g, t) := Neo.merge_nodes (λ b, genre_node b.1.1) pair g t in
  (* MERGE (song)-[:BY_ARTIST]->(artist) *)
  let '(g, t) := Neo.merge_rels by_artist g t in
  (* MERGE (song)-[:IN_GENRE]->(genre) *)
  let '(g, t) := Neo.merge_rels in_genre g t in
  (* MERGE (artist)-[:PLAYS_GENRE]->(genre) *)
  let '(g, _) := Neo.merge_rels plays_genre g t in
  g.

(** The text held by a variable that passed the [not] test. *)
Definition text (x : option string) : string := default "" x.

(** The rows one document adds to the pending batch; [None] when the
    loop body leaves through one of its two [continue]s. *)
Definition doc_rows (d : doc) : option (list row) :=
  let track_id := clean_value (get (d_track_id d)) in
  let track_name := clean_value (get (d_track_name d)) in
  let genre := clean_value (get (d_track_genre d)) in
  if falsy track_id || falsy genre then None
  else
    let artist_list := default [] (d_artist_list d) in
    match artist_list with
    | [] => None
    | _ =>
        Some (omap (λ artist,
                let artist := clean_value artist in
                if falsy artist then None
                else Some {| track_id := text track_id; track_name := track_name;
                             artist := text artist; genre := text genre |})
                artist_list)
    end.

(** The state of [main]'s loop: the pending batch, the batch counter,
    the graph store, and the batches written so far (oldest first). *)
Record state := {
  batch : list row;
  batch_num : nat;
  store : Neo.graph;
  written : list (list row)
}.

(** [session.execute_write(insert_batch, batch)] *)
Definition execute_write (st : state) : state :=
  {| batch := batch st;
     batch_num := batch_num st;
     store := insert_batch (store st) (batch st);
     written := written st ++ [batch st] |}.

(** One iteration of [for doc in cursor]. *)
Definition step (st : state) (d : doc) : state :=
  match doc_rows d with
  | None => st
  | Some rows =>
      let st := {| batch := batch st ++ rows; batch_num := batch_num st;
                   store := store st; written := written st |} in
      if bool_decide (BATCH_SIZE ≤ length (batch st)) then
        let st := execute_write st in
        {| batch := []; batch_num := batch_num st + 1;
           store := store st; written := written st |}
      else st
  end.

Definition init (g : Neo.graph) : state :=
  {| batch := []; batch_num := 1; store := g; written := [] |}.

(** The [for] loop over the cursor. *)
Definition loop (g : Neo.graph) (cursor : list doc) : state :=
  foldl step (init g) cursor.

(** [main]: the loop, then the final batch when one is pending. *)
Definition main (g : Neo.graph) (cursor : list doc) : state :=
  let st := loop g cursor in
  match batch st with
  | [] => st
  | _ => execute_write st
  end.

(** The graph store after a run of the builder. *)
Definition build (g : Neo.graph) (cursor : list doc) : Neo.graph :=
  store (main g cursor).

End Builder.

(** ** Hybrid Recommender ([04_cross_data.py]) *)

Module Recommender.

(** One element of the list [get_similar_artists] returns. *)
Record peer := {
  artist : string;
  genres : list string;
  matches : nat
}.

(** [ORDER BY matches DESC]: the order of [x] before [y]. *)
Definition by_matches_desc (x y : peer) : Prop := matches y ≤ matches x.

#[global] Instance by_matches_desc_dec x y : Decision (by_matches_desc x y).
Proof. unfold by_matches_desc. apply _. Defined.

Definition genre_at (g : Neo.graph) (id : nat) : option string :=
  match Neo.nodes g !! id with
  | Some (Neo.Genre name) => Some name
  | _ => None
  end.

Definition artist_at (g : Neo.graph) (id : nat) : option string :=
  match Neo.nodes g !! id with
  | Some (Neo.Artist name) => Some name
  | _ => None
  end.

(** [MATCH (a:Artist {name: $artist})-[:PLAYS_GENRE]->(g:Genre)]:
    records [(a, g)], with [g] bound to a node identity and its name. *)
Definition match_seed (g : Neo.graph) (artist_name : string)
  : list (nat * (nat * string)) :=
  a ← Neo.find_nodes (Neo.Artist artist_name) g;
  r ← Neo.rels g;
  if decide (Neo.src r = a ∧ Neo.rtype r = Neo.PLAYS_GENRE) then
    match genre_at g (Neo.dst r) with
    | Some name => [(a, (Neo.dst r, name))]
    | None => []
    end
  else [].

(** [MATCH (other:Artist)-[:PLAYS_GENRE]->(g)]: records [(a, g, other)]. *)
Definition match_other (g : Neo.graph) (table : list (nat * (nat * string)))
  : list (nat * (nat * string) * (nat * string)) :=
  b ← table;
  r ← Neo.rels g;
  if decide (Neo.dst r = b.2.1 ∧ Neo.rtype r = Neo.PLAYS_GENRE) then
    match artist_at g (Neo.src r) with
    | Some name => [(b, (Neo.src r, name))]
    | None => []
    end
  else [].

(** [WHERE other <> a]: the two are different nodes. *)
Definition where_other_not_seed (table : list (nat * (nat * string) * (nat * string)))
  : list (nat * (nat * string) * (nat * string)) :=
  filter (λ b, b.2.1 ≠ b.1.1) table.

(** [WITH other, COLLECT(DISTINCT g.name) AS shared_genres
     RETURN other.name AS artist, shared_genres AS genres,
            SIZE(shared_genres) AS matches]: one record per node [other]. *)
Definition collect_genres (table : list (nat * (nat * string) * (nat * string)))
  : list peer :=
  (λ other,
     let shared_genres :=
       remove_dups ((λ b, b.1.2.2) <$> filter (λ b, b.2 = other) table) in
     {| artist := other.2;
        genres := shared_genres;
        matches := length shared_genres |})
  <$> remove_dups (snd <$> table).

Definition LIMIT : nat := 20.

(** [get_similar_artists]: the query with [ORDER BY matches DESC LIMIT 20]. *)
Definition get_similar_artists (g : Neo.graph) (artist_name : string) : list peer :=
  take LIMIT
    (merge_sort by_matches_desc
       (collect_genres (where_other_not_seed (match_other g (match_seed g artist_name))))).

(** [get_top_songs_for_artists]: the pipeline [$match], [$sort], [$limit],
    [$project] over [db.tracks]. *)
Definition get_top_songs_for_artists (tracks : Mongo.collection)
    (artists_list : list string) : list Mongo.song :=
  Mongo.project <$>
    take 15
      (merge_sort Mongo.by_popularity_desc
         (filter (λ d, Mongo.artists d ∈ artists_list) (Mongo.docs tracks))).

(** The two process-wide connections: is each one open? *)
Record connections := { neo : bool; mongo_client : bool }.

Definition connect : connections := {| neo := true; mongo_client := true |}.
Definition close_mongo (c : connections) : connections :=
  {| neo := neo c; mongo_client := false |}.
Definition close_neo (c : connections) : connections :=
  {| neo := false; mongo_client := mongo_client c |}.

(** What a run reports. *)
Inductive report :=
| NoSimilarArtists
| Recommendation (similar_artists : list peer) (songs : list Mongo.song).

(** [main]: returns the state of the connections when it returns, and
    the report. *)
Definition main (g : Neo.graph) (tracks : Mongo.collection) (input : string)
  : connections * report :=
  let c := connect in
  let artista_base := Py.strip input in
  let similar_artists := get_similar_artists g artista_base in
  match similar_artists with
  | [] => (c, NoSimilarArtists)
  | _ =>
      let artists_only := artist <$> similar_artists in
      let songs := get_top_songs_for_artists tracks artists_only in
      let c := close_mongo c in
      let c := close_neo c in
      (c, Recommendation similar_artists songs)
  end.

End Recommender.

(** ** Notions used to state the properties *)

(** A field value counts as absent when it is missing or [None], when it
    is NaN, or when it is text that is empty once stripped. *)
Definition absent (field : option Py.value) : Prop :=
  Builder.get field = Py.VNone
  ∨ Builder.get field = Py.VFloat Py.FNan
  ∨ ∃ s, Builder.get field = Py.VStr s ∧ Py.strip s = "".

(** A document of a cursor: all four fields present, as text. *)
Definition mk_doc (tid name gen : string) (arts : list string) : Builder.doc :=
  {| Builder.d_track_id := Some (Py.VStr tid);
     Builder.d_track_name := Some (Py.VStr name);
     Builder.d_artist_list := Some (Py.VStr <$> arts);
     Builder.d_track_genre := Some (Py.VStr gen) |}.

(** A small document set: artist A plays pop and rock, B plays rock and
    jazz, C plays pop; the last two documents share their [track_id]. *)
Definition scenario_docs : list Builder.doc :=
  [ mk_doc "t1" "one" "pop" ["A"; "C"];
    mk_doc "t2" "two" "rock" ["A"; " B "];
    mk_doc "t3" "three" "jazz" ["B"];
    mk_doc "t3" "drei" "jazz" ["B"] ].

(** A document with 501 artists. *)
Definition crowded_doc : Builder.doc :=
  {| Builder.d_track_id := Some (Py.VStr "t");
     Builder.d_track_name := Some (Py.VStr "n");
     Builder.d_artist_list :=
       Some ((λ k, Py.VInt (Z.of_nat k)) <$> seq 0 501);
     Builder.d_track_genre := Some (Py.VStr "g") |}.

(** What holds of the loop state after any number of documents: the
    pending batch is below the threshold, and every batch written so far
    reached it when the rows of one document were added to fewer than
    [BATCH_SIZE] pending rows. *)
Definition flushed_by (cursor : list Builder.doc) (b : list Builder.row) : Prop :=
  Builder.BATCH_SIZE ≤ length b
  ∧ ∃ pending d rows,
      d ∈ cursor ∧ Builder.doc_rows d = Some rows
      ∧ b = pending ++ rows ∧ length pending ≤ Builder.BATCH_SIZE - 1.

(** The [tracks] collection right after [collection.drop()] (or before
    the first load): no documents, no index, no validation rule. *)
Definition fresh_collection : Mongo.collection :=
  {| Mongo.docs := []; Mongo.track_id_unique := false; Mongo.validator := λ _, true |}.


(** An indexed collection whose validation rule wants a track name. *)
Definition validating_collection : Mongo.collection :=
  {| Mongo.docs := []; Mongo.track_id_unique := true;
     Mongo.validator := λ d, Py.truthy (Mongo.track_name d) |}.

Definition track (tid name arts gen : string) (pop : Z) : Mongo.document :=
  {| Mongo.track_id := tid; Mongo.track_name := name; Mongo.artists := arts;
     Mongo.artist_list := Normalizer.split_artists arts; Mongo.album_name := "";
     Mongo.track_genre := gen; Mongo.popularity := pop; Mongo.duration_ms := 0;
     Mongo.explicit := false; Mongo.audio_features := [] |}.

(** The track whose [track_id] is the decimal text of [n]. *)
Definition numbered (n : nat) : Mongo.document :=
  track (NilZero.string_of_uint (Nat.to_uint n)) "song" "X" "pop" 50.

(** 999 tracks with different ids; the batch of 1000 used below is these
    followed by [numbered 0], one more document with the id of the first. *)
Definition unique_999 : list Mongo.document := numbered <$> seq 0 999.

(** A batch has one duplicate when it is [l1 ++ d :: l2] where the
    documents of [l1 ++ l2] have ids that differ from each other and from
    all ids stored in the collection, and the id of [d] is that of a
    stored document or of a document of [l1]. *)
Definition one_duplicate (c : Mongo.collection) (l1 : list Mongo.document)
    (d : Mongo.document) (l2 : list Mongo.document) : Prop :=
  NoDup (Mongo.track_id <$> l1 ++ l2)
  ∧ (∀ x, x ∈ l1 ++ l2 → Mongo.track_id x ∉ Mongo.track_id <$> Mongo.docs c)
  ∧ Mongo.track_id d ∈ Mongo.track_id <$> Mongo.docs c ++ l1.

(** The collection [c] with the documents [l] stored after its own. *)
Definition extend (c : Mongo.collection) (l : list Mongo.document) : Mongo.collection :=
  {| Mongo.docs := Mongo.docs c ++ l;
     Mongo.track_id_unique := Mongo.track_id_unique c;
     Mongo.validator := Mongo.validator c |}.

(** A batch of two for the validating collection: the first document has
    no track name, the second is in order; their ids differ. *)
Definition unnamed_then_named : list Mongo.document :=
  [ track "a" "" "X" "pop" 10; track "b" "song" "Y" "rock" 20 ].

(** The names of the [Artist] nodes of a graph, in node order. *)
Definition artist_names (g : Neo.graph) : list string :=
  omap (λ n, match n with Neo.Artist name => Some name | _ => None end) (Neo.nodes g).

(** The keys of the nodes of a graph, in node order: what the node
    patterns of [MERGE] are compared with. *)
Definition keys (g : Neo.graph) : list Neo.node := Neo.key_of <$> Neo.nodes g.

(** The effect of the [SET] clause for one row on one node, and of the
    clause for the rows of a batch, in order, on a node and on a graph. *)
Definition set_row (r : Builder.row) (n : Neo.node) : Neo.node :=
  if Neo.matches (Builder.song_node r) n
  then Neo.set_track_name (Builder.track_name r) n
  else n.

Definition rename_node (b : list Builder.row) (n : Neo.node) : Neo.node :=
  foldl (λ n r, set_row r n) n b.

Definition rename (b : list Builder.row) (g : Neo.graph) : Neo.graph :=
  {| Neo.nodes := rename_node b <$> Neo.nodes g; Neo.rels := Neo.rels g |}.

(** A graph is closed under a batch when, for every row, it has nodes for
    the song, the artist and the genre, and all such nodes are joined by
    the three relationships. *)
Definition closed (b : list Builder.row) (g : Neo.graph) : Prop :=
  ∀ r, r ∈ b →
    Builder.song_node r ∈ keys g
    ∧ Builder.artist_node r ∈ keys g
    ∧ Builder.genre_node r ∈ keys g
    ∧ ∀ s a gn,
        s ∈ Neo.find_nodes (Builder.song_node r) g →
        a ∈ Neo.find_nodes (Builder.artist_node r) g →
        gn ∈ Neo.find_nodes (Builder.genre_node r) g →
        Builder.by_artist (r, s, a, gn) ∈ Neo.rels g
        ∧ Builder.in_genre (r, s, a, gn) ∈ Neo.rels g
        ∧ Builder.plays_genre (r, s, a, gn) ∈ Neo.rels g.

(** [g'] extends [g]: it has the nodes of [g] (up to track names), then
    nodes with keys that [g] does not have, and all relationships of [g]. *)
Definition extends (g g' : Neo.graph) : Prop :=
  ∃ fresh,
    keys g' = keys g ++ fresh
    ∧ (∀ k, k ∈ fresh → k ∉ keys g)
    ∧ (∀ r, r ∈ Neo.rels g → r ∈ Neo.rels g').

(** The batches a run of the builder writes for a cursor, the final one
    included (they do not depend on the graph store). *)
Definition batches (cursor : list Builder.doc) : list (list Builder.row) :=
  Builder.written (Builder.main Neo.empty cursor).

(** A graph without duplicates: no two nodes with the same label and key,
    no two relationships of the same type between the same two nodes. *)
Definition unique (g : Neo.graph) : Prop :=
  NoDup (keys g) ∧ NoDup (Neo.rels g).

(** Four stored tracks, by three artists. *)
Definition sample_tracks : Mongo.collection :=
  extend fresh_collection
    [ track "1" "s1" "A" "pop" 10; track "2" "s2" "B" "rock" 30;
      track "3" "s3" "A, B" "rock" 99; track "4" "s4" "C" "pop" 20 ].

(** ** Further notions *)







(** * Properties *)

(** ** Worked examples *)

Example clean_value_examples :
  Builder.clean_value (Py.VStr "  pop ") = Some "pop"
  ∧ Builder.clean_value (Py.VStr "   ") = None
  ∧ Builder.clean_value Py.VNone = None
  ∧ Builder.clean_value (Py.VFloat Py.FNan) = None
  ∧ Builder.clean_value (Py.VFloat (Py.FNum "0.5")) = Some "0.5"
  ∧ Builder.clean_value (Py.VInt 7) = Some "7".
Proof. repeat split. Qed.

Example split_examples :
  Py.split "," "a,,b," = ["a"; ""; "b"; ""]
  ∧ Py.split "," "" = [""]
  ∧ Py.strip "  a b  " = "a b".
Proof. repeat split. Qed.

Example doc_rows_example :
  Builder.doc_rows (mk_doc "t2" "two" "rock" ["A"; " B "; "  "])
  = Some [ {| Builder.track_id := "t2"; Builder.track_name := Some "two";
              Builder.artist := "A"; Builder.genre := "rock" |};
           {| Builder.track_id := "t2"; Builder.track_name := Some "two";
              Builder.artist := "B"; Builder.genre := "rock" |} ].
Proof. reflexivity. Qed.

Example scenario_graph :
  Builder.build Neo.empty scenario_docs
  = {| Neo.nodes :=
         [ Neo.Song "t1" (Some "one"); Neo.Song "t2" (Some "two");
           Neo.Song "t3" (Some "drei");
           Neo.Artist "A"; Neo.Artist "C"; Neo.Artist "B";
           Neo.Genre "pop"; Neo.Genre "rock"; Neo.Genre "jazz" ];
       Neo.rels :=
         [ Neo.Build_rel 0 Neo.BY_ARTIST 3; Neo.Build_rel 0 Neo.BY_ARTIST 4;
           Neo.Build_rel 1 Neo.BY_ARTIST 3; Neo.Build_rel 1 Neo.BY_ARTIST 5;
           Neo.Build_rel 2 Neo.BY_ARTIST 5;
           Neo.Build_rel 0 Neo.IN_GENRE 6; Neo.Build_rel 1 Neo.IN_GENRE 7;
           Neo.Build_rel 2 Neo.IN_GENRE 8;
           Neo.Build_rel 3 Neo.PLAYS_GENRE 6; Neo.Build_rel 4 Neo.PLAYS_GENRE 6;
           Neo.Build_rel 3 Neo.PLAYS_GENRE 7; Neo.Build_rel 5 Neo.PLAYS_GENRE 7;
           Neo.Build_rel 5 Neo.PLAYS_GENRE 8 ] |}.
Proof. reflexivity. Qed.

Example scenario_peers :
  Recommender.get_similar_artists (Builder.build Neo.empty scenario_docs) "A"
  = [ {| Recommender.artist := "C"; Recommender.genres := ["pop"];
         Recommender.matches := 1 |};
      {| Recommender.artist := "B"; Recommender.genres := ["rock"];
         Recommender.matches := 1 |} ].
Proof. reflexivity. Qed.

Example sample_top_songs :
  Recommender.get_top_songs_for_artists sample_tracks ["A"; "B"]
  = [ {| Mongo.s_track_name := "s2"; Mongo.s_artists := "B";
         Mongo.s_popularity := 30; Mongo.s_track_genre := "rock" |};
      {| Mongo.s_track_name := "s1"; Mongo.s_artists := "A";
         Mongo.s_popularity := 10; Mongo.s_track_genre := "pop" |} ].
Proof. reflexivity. Qed.

Example sample_run_closes_connections :
  (Recommender.main (Builder.build Neo.empty scenario_docs) sample_tracks " A ").1
  = {| Recommender.neo := false; Recommender.mongo_client := false |}.
Proof. reflexivity. Qed.

(** ** Row Normalizer *)

Section Split.
Variable sep : ascii.

Lemma split_no_sep t : Py.contains sep t = false → Py.split sep t = [t].
Proof.
  induction t as [|c t IH]; simpl; [done|].
  intros [Hc Ht]%orb_false_iff. rewrite Hc, (IH Ht). done.
Qed.

Lemma split_app_sep t s :
  Py.contains sep t = false →
  Py.split sep (t +:+ String sep s) = t :: Py.split sep s.
Proof.
  induction t as [|c t IH]; simpl.
  - intros _. by rewrite Ascii.eqb_refl.
  - intros [Hc Ht]%orb_false_iff. rewrite Hc.
    change (String.append t (String sep s)) with (t +:+ String sep s).
    by rewrite (IH Ht).
Qed.

Lemma split_join (ts : list string) :
  ts ≠ [] → Forall (λ t, Py.contains sep t = false) ts →
  Py.split sep (Py.join sep ts) = ts.
Proof.
  induction ts as [|t ts IH]; [done|]. intros _ Hts.
  apply Forall_cons in Hts as [Ht Hts].
  destruct ts as [|t' ts].
  - simpl. by apply split_no_sep.
  - change (Py.join sep (t :: t' :: ts))
      with (t +:+ String sep (Py.join sep (t' :: ts))).
    rewrite split_app_sep by done. f_equal. by apply IH.
Qed.
End Split.

Lemma truthy_nonempty s : Py.truthy s = true ↔ s ≠ "".
Proof. destruct s; simpl; split; (done || congruence). Qed.

Lemma strip_filter (ts : list string) :
  Py.strip <$> filter (λ a, Py.truthy (Py.strip a) = true) ts
  = filter (λ t, t ≠ "") (Py.strip <$> ts).
Proof.
  induction ts as [|t ts IH]; [done|].
  rewrite fmap_cons, !filter_cons.
  destruct (decide (Py.truthy (Py.strip t) = true)) as [H|H];
    destruct (decide (Py.strip t ≠ "")) as [H'|H'];
    rewrite truthy_nonempty in H; try done.
  by rewrite fmap_cons, IH.
Qed.

(** C7. Artist splitting.  When the raw artists field is the
    comma-separated text of the tokens [ts] (no token holding a comma),
    the artist list is exactly the tokens, each stripped of surrounding
    whitespace, in their original order, without the ones that are empty
    once stripped, and with repeated names kept; the result depends on the
    raw field alone.  The raw value "X, Y, , Z" gives ["X"; "Y"; "Z"], and
    a repeated name is kept: "A, B, A" gives ["A"; "B"; "A"]. *)
Theorem artist_splitting :
  (∀ ts : list string,
     Forall (λ t, Py.contains "," t = false) ts →
     Normalizer.artist_list (Some (Py.VStr (Py.join "," ts)))
     = filter (λ t, t ≠ "") (Py.strip <$> ts))
  ∧ Normalizer.artist_list (Some (Py.VStr "X, Y, , Z")) = ["X"; "Y"; "Z"]
  ∧ Normalizer.artist_list (Some (Py.VStr "A, B, A")) = ["A"; "B"; "A"].
Proof.
  split; [|by split].
  intros ts Hts. unfold Normalizer.artist_list, Normalizer.artists_str.
  simpl. unfold Normalizer.split_artists.
  destruct ts as [|t ts]; [done|].
  rewrite split_join by done. apply strip_filter.
Qed.

Lemma artist_splitting_witness :
  Forall (λ t, Py.contains "," t = false) ["X"; " Y"; " "; " Z"]
  ∧ Normalizer.artist_list (Some (Py.VStr (Py.join "," ["X"; " Y"; " "; " Z"])))
    = filter (λ t, t ≠ "") (Py.strip <$> ["X"; " Y"; " "; " Z"]).
Proof.
  split.
  - repeat constructor.
  - apply (proj1 artist_splitting). repeat constructor.
Defined.

(** ** Graph Builder: the loop of [main] *)

Lemma loop_snoc g cursor d :
  Builder.loop g (cursor ++ [d]) = Builder.step (Builder.loop g cursor) d.
Proof. unfold Builder.loop. by rewrite foldl_app. Qed.

Lemma clean_value_absent field : absent field → Builder.clean_value (Builder.get field) = None.
Proof.
  intros [H|[H|(s & H & Hs)]]; rewrite H; [done..|].
  simpl. by rewrite Hs.
Qed.

Lemma doc_rows_skip d :
  absent (Builder.d_track_id d) ∨ absent (Builder.d_track_genre d)
  ∨ default [] (Builder.d_artist_list d) = [] →
  Builder.doc_rows d = None.
Proof.
  unfold Builder.doc_rows.
  intros [H|[H|H]].
  - by rewrite (clean_value_absent _ H).
  - rewrite (clean_value_absent _ H). by rewrite orb_true_r.
  - rewrite H. by destruct (_ || _).
Qed.

(** C2. Skipped documents.  When a document's [track_id] or genre is
    absent (missing, NaN, or empty once stripped), or its artist list is
    empty, the loop body leaves the whole state as it was: no row is added
    to the pending batch, nothing is written, and the graph store (so also
    its [Song] nodes) is unchanged, whatever the other fields hold; a run
    over a cursor with the document gives the same graph as a run over the
    cursor without it. *)
Theorem incomplete_document_skipped (d : Builder.doc) :
  absent (Builder.d_track_id d) ∨ absent (Builder.d_track_genre d)
  ∨ default [] (Builder.d_artist_list d) = [] →
  Builder.doc_rows d = None
  ∧ (∀ st, Builder.step st d = st)
  ∧ (∀ g before after,
       Builder.main g (before ++ d :: after) = Builder.main g (before ++ after)).
Proof.
  intros H. pose proof (doc_rows_skip d H) as Hd.
  assert (∀ st, Builder.step st d = st) as Hstep.
  { intros st. unfold Builder.step. by rewrite Hd. }
  repeat split; [done..|].
  intros g before after. unfold Builder.main, Builder.loop.
  rewrite !foldl_app. simpl. by rewrite Hstep.
Qed.

Lemma incomplete_document_skipped_witness :
  let d := {| Builder.d_track_id := Some (Py.VStr "t1");
              Builder.d_track_name := Some (Py.VStr "one");
              Builder.d_artist_list := Some [Py.VStr "A"];
              Builder.d_track_genre := Some (Py.VStr "  ") |} in
  Builder.doc_rows d = None
  ∧ (∀ st, Builder.step st d = st)
  ∧ (∀ g before after,
       Builder.main g (before ++ d :: after) = Builder.main g (before ++ after)).
Proof.
  intros d. apply (incomplete_document_skipped d).
  right; left. right; right. exists "  ". split; reflexivity.
Defined.

Lemma flushed_by_mono cursor d b : flushed_by cursor b → flushed_by (cursor ++ [d]) b.
Proof.
  intros [? (pending & d' & rows & ? & ? & ? & ?)]. split; [done|].
  exists pending, d', rows. rewrite elem_of_app. auto.
Qed.

Lemma loop_invariant g cursor :
  length (Builder.batch (Builder.loop g cursor)) < Builder.BATCH_SIZE
  ∧ Forall (flushed_by cursor) (Builder.written (Builder.loop g cursor)).
Proof.
  induction cursor as [|d cursor [IHb IHw]] using rev_ind.
  - split; [cbv; lia | constructor].
  - rewrite loop_snoc. unfold Builder.step.
    assert (Forall (flushed_by (cursor ++ [d]))
              (Builder.written (Builder.loop g cursor))) as IHw'.
    { eapply Forall_impl; [done|]. intros b. apply flushed_by_mono. }
    destruct (Builder.doc_rows d) as [rows|] eqn:Hd; [|done].
    cbn [Builder.batch]. case_bool_decide as Hlen; cbn.
    + split; [cbv; lia|]. apply Forall_app. split; [done|].
      apply Forall_singleton. split; [done|].
      exists (Builder.batch (Builder.loop g cursor)), d, rows.
      rewrite elem_of_app, list_elem_of_singleton. repeat split; auto. lia.
    + split; [lia | done].
Qed.

(** C10. Batch sizes.  The flush check runs once per retained document,
    after all of its rows are appended.  A run writes the batches of the
    loop and then, when rows are pending, the final batch.  Every batch
    written inside the loop (every non-final batch) has at least 500 rows and consists of at
    most 499 rows that were pending followed by all the rows of the last
    document added (one row per retained artist); and such a batch can
    have more than 500 rows, the batch size is not a cap. *)
Theorem nonfinal_batch_size :
  (∀ g cursor,
     Builder.written (Builder.main g cursor)
     = Builder.written (Builder.loop g cursor)
       ++ match Builder.batch (Builder.loop g cursor) with
          | [] => []
          | final => [final]
          end)
  ∧ (∀ g cursor b,
       b ∈ Builder.written (Builder.loop g cursor) →
       500 ≤ length b
       ∧ ∃ pending d rows,
           d ∈ cursor ∧ Builder.doc_rows d = Some rows
           ∧ b = pending ++ rows ∧ length pending ≤ 499
           ∧ length b ≤ 499 + length rows)
  ∧ (∃ g cursor b,
       b ∈ Builder.written (Builder.loop g cursor) ∧ 500 < length b).
Proof.
  split; [|split].
  - intros g cursor. unfold Builder.main.
    destruct (Builder.batch (Builder.loop g cursor)) eqn:E; [by rewrite app_nil_r|].
    cbn. by rewrite E.
  - intros g cursor b Hb.
    destruct (loop_invariant g cursor) as [_ Hw].
    rewrite Forall_forall in Hw.
    destruct (Hw b Hb) as [Hlen (pending & d & rows & ? & ? & -> & Hp)].
    split; [done|]. exists pending, d, rows.
    change (Builder.BATCH_SIZE - 1) with 499 in Hp.
    repeat split; auto. rewrite length_app. lia.
  - exists Neo.empty, [crowded_doc].
    eexists. split.
    + assert (Builder.written (Builder.loop Neo.empty [crowded_doc])
              = [default [] (Builder.doc_rows crowded_doc)]) as ->
        by (vm_compute; reflexivity).
      apply list_elem_of_singleton. reflexivity.
    + vm_compute. lia.
Qed.

Lemma nonfinal_batch_size_witness :
  let b := default [] (Builder.doc_rows crowded_doc) in
  500 ≤ length b
  ∧ ∃ pending d rows,
      d ∈ [crowded_doc] ∧ Builder.doc_rows d = Some rows
      ∧ b = pending ++ rows ∧ length pending ≤ 499
      ∧ length b ≤ 499 + length rows.
Proof.
  intros b. apply (proj1 (proj2 nonfinal_batch_size) Neo.empty [crowded_doc] b).
  assert (Builder.written (Builder.loop Neo.empty [crowded_doc]) = [b]) as ->
    by (vm_compute; reflexivity).
  apply list_elem_of_singleton. reflexivity.
Defined.

(** ** Batch Loader *)








Lemma batch_starts_lt n i : i ∈ Loader.batch_starts n → i < n.
Proof.
  unfold Loader.batch_starts. intros (k & -> & Hk)%list_elem_of_fmap.
  apply elem_of_seq in Hk as [_ Hk]. unfold Loader.BATCH_SIZE in *.
  pose proof (Nat.div_mod_eq (n + 1000 - 1) 1000).
  pose proof (Nat.mod_upper_bound (n + 1000 - 1) 1000). lia.
Qed.

Lemma insert_documents_batch_returns c documents :
  documents ≠ [] →
  ∃ c' counts, Loader.insert_documents_batch c documents = (c', Loader.Returned counts).
Proof.
  intros Hne. unfold Loader.insert_documents_batch, Mongo.insert_many.
  destruct documents as [|d l]; [done|].
  destruct (Mongo.write_unordered c 0 (d :: l)) as [c' [ids [|e errs]]]; eauto.
Qed.

Lemma load_never_raises c df : ∃ r, Loader.load c df = Loader.Returned r.
Proof.
  unfold Loader.load.
  pose proof (batch_starts_lt (length df)) as Hlt.
  generalize (c, 0, 0) as st.
  induction (Loader.batch_starts (length df)) as [|i starts IH]; intros st.
  - by eexists.
  - simpl. destruct st as [[c0 n] m].
    destruct (insert_documents_batch_returns c0 (take Loader.BATCH_SIZE (drop i df)))
      as (c' & [a b] & ->).
    + assert (i < length df) as Hi by (apply Hlt; left).
      intros H%(f_equal length). rewrite length_take, length_drop in H.
      unfold Loader.BATCH_SIZE in H. cbn [length] in H. lia.
    + apply IH. intros j Hj. apply Hlt. by right.
Qed.

Lemma one_duplicate_batch_1000 c :
  Mongo.docs c = [] → one_duplicate c unique_999 (numbered 0) [].
Proof.
  intros Hc. unfold one_duplicate. rewrite Hc, app_nil_r. repeat split.
  - apply (bool_decide_unpack _). vm_compute. exact I.
  - intros x _. simpl. apply not_elem_of_nil.
  - simpl. apply (bool_decide_unpack _). vm_compute. exact I.
Qed.

(** C8. Batch insert tolerance, on the collection [main] loads into.
    [main] builds the unique index on [track_id] only after the insertion
    loop (and dropping a collection drops its indexes), so the loop runs
    on a collection without it.  There a batch of 999 documents with
    different ids and one more document repeating an id raises no
    duplicate-key conflict: the batch is stored whole and reported as
    1000 inserted and 0 duplicates, not 999 and 1, and the run over these
    1000 rows ends with all 1000 stored and totals 1000 and 0. *)
Theorem batch_insert_without_index :
  Mongo.track_id_unique fresh_collection = false
  ∧ length unique_999 = 999
  ∧ one_duplicate fresh_collection unique_999 (numbered 0) []
  ∧ (Loader.insert_documents_batch fresh_collection (unique_999 ++ [numbered 0])).2
    = Loader.Returned (1000, 0)
  ∧ (Loader.insert_documents_batch fresh_collection (unique_999 ++ [numbered 0])).2
    ≠ Loader.Returned (999, 1)
  ∧ Loader.load fresh_collection (unique_999 ++ [numbered 0])
    = Loader.Returned
        (extend fresh_collection (unique_999 ++ [numbered 0]), 1000, 0).
Proof.
  split; [done|]. split; [done|]. split; [by apply one_duplicate_batch_1000|].
  assert ((Loader.insert_documents_batch fresh_collection
             (unique_999 ++ [numbered 0])).2 = Loader.Returned (1000, 0)) as ->
    by (vm_compute; reflexivity).
  split; [done|]. split; [discriminate|].
  vm_compute. reflexivity.
Qed.



Lemma write_unordered_lengths c i l :
  length (Mongo.write_unordered c i l).2.1 + length (Mongo.write_unordered c i l).2.2
  = length l.
Proof.
  revert c i. induction l as [|d l IH]; intros c i; [done|].
  simpl. destruct (Mongo.write_one c d) as [c1|e].
  - specialize (IH c1 (S i)).
    destruct (Mongo.write_unordered c1 (S i) l) as [? [? ?]]. simpl in *. lia.
  - specialize (IH c (S i)).
    destruct (Mongo.write_unordered c (S i) l) as [? [? ?]]. simpl in *. lia.
Qed.

Lemma length_filter_split {A} (P : A → Prop) `{∀ x, Decision (P x)} (l : list A) :
  length l = length (filter P l) + length (filter (λ x, ¬ P x) l).
Proof.
  induction l as [|x l IH]; [done|].
  rewrite !filter_cons. destruct (decide (P x)), (decide (¬ P x)); simpl; try done; lia.
Qed.

(** C9. What the duplicate count counts.  When [insert_many] raises a
    bulk-write error, the batch is reported as [nInserted] inserted and as
    many duplicates as the error has write errors, whatever their codes:
    the write errors that are duplicate-key conflicts and those that are
    not are counted together, and every document of the batch is counted
    once, as inserted or as duplicate. *)
Theorem duplicate_count_is_write_error_count c documents c' e :
  Mongo.insert_many c documents = (c', Mongo.BulkWriteError e) →
  Loader.insert_documents_batch c documents
  = (c', Loader.Returned (Mongo.nInserted e, length (Mongo.writeErrors e)))
  ∧ length (Mongo.writeErrors e)
    = length (filter (λ w, Mongo.code w = Mongo.DuplicateKey) (Mongo.writeErrors e))
      + length (filter (λ w, Mongo.code w ≠ Mongo.DuplicateKey) (Mongo.writeErrors e))
  ∧ Mongo.nInserted e + length (Mongo.writeErrors e) = length documents.
Proof.
  intros H. split; [|split].
  - unfold Loader.insert_documents_batch. by rewrite H.
  - apply length_filter_split.
  - unfold Mongo.insert_many in H.
    destruct documents as [|d l]; [done|].
    pose proof (write_unordered_lengths c 0 (d :: l)) as Hlen.
    destruct (Mongo.write_unordered c 0 (d :: l)) as [c1 [ids [|w errs]]]; [done|].
    injection H as _ <-. done.
Qed.

Lemma duplicate_count_is_write_error_count_witness :
  let e := {| Mongo.nInserted := 1;
              Mongo.writeErrors :=
                [ {| Mongo.index := 0; Mongo.code := Mongo.DocumentValidationFailure |} ] |} in
  let c' := extend validating_collection [track "b" "song" "Y" "rock" 20] in
  Loader.insert_documents_batch validating_collection unnamed_then_named
  = (c', Loader.Returned (1, 1))
  ∧ 1 = length (filter (λ w, Mongo.code w = Mongo.DuplicateKey) (Mongo.writeErrors e))
        + length (filter (λ w, Mongo.code w ≠ Mongo.DuplicateKey) (Mongo.writeErrors e))
  ∧ 1 + 1 = length unnamed_then_named.
Proof.
  intros e c'.
  apply (duplicate_count_is_write_error_count
           validating_collection unnamed_then_named c' e).
  reflexivity.
Defined.

(** ** Ordered, capped results *)

Section TopK.
Context {A : Type} (R : relation A) `{∀ x y, Decision (R x y)}.
Context `{!Transitive R, !Total R}.
Implicit Types (l : list A) (n : nat).

Lemma top_elem_of n l x : x ∈ take n (merge_sort R l) → x ∈ l.
Proof.
  intros (i & Hx%list_elem_of_lookup_2 & _)%elem_of_take.
  by rewrite merge_sort_Permutation in Hx.
Qed.

Lemma top_sorted n l : StronglySorted R (take n (merge_sort R l)).
Proof.
  apply (StronglySorted_app_1_l R _ (drop n (merge_sort R l))).
  rewrite take_drop. by apply StronglySorted_merge_sort.
Qed.

Lemma top_length n l : length (take n (merge_sort R l)) = n `min` length l.
Proof. by rewrite length_take, merge_sort_Permutation. Qed.

Lemma top_best n l x :
  x ∈ l → x ∈ take n (merge_sort R l) ∨ ∀ y, y ∈ take n (merge_sort R l) → R y x.
Proof.
  intros Hx. rewrite <- (merge_sort_Permutation R l) in Hx.
  rewrite <- (take_drop n (merge_sort R l)) in Hx at 1.
  apply elem_of_app in Hx as [Hx|Hx]; [by left|right].
  intros y Hy.
  apply (StronglySorted_app_1_elem_of R (take n (merge_sort R l))
           (drop n (merge_sort R l))); [|done..].
  rewrite take_drop. by apply StronglySorted_merge_sort.
Qed.

Lemma top_split n l :
  l ≡ₚ take n (merge_sort R l) ++ drop n (merge_sort R l)
  ∧ ∀ x y, x ∈ drop n (merge_sort R l) → y ∈ take n (merge_sort R l) → R y x.
Proof.
  split; [by rewrite take_drop, merge_sort_Permutation|].
  intros x y Hx Hy.
  apply (StronglySorted_app_1_elem_of R (take n (merge_sort R l))
           (drop n (merge_sort R l))); [|done..].
  rewrite take_drop. by apply StronglySorted_merge_sort.
Qed.

Lemma top_all n l : length l ≤ n → take n (merge_sort R l) ≡ₚ l.
Proof.
  intros Hn. rewrite take_ge; [apply merge_sort_Permutation|].
  by rewrite merge_sort_Permutation.
Qed.
End TopK.

#[local] Instance by_popularity_desc_trans : Transitive Mongo.by_popularity_desc.
Proof. unfold Mongo.by_popularity_desc. intros x y z. lia. Qed.
#[local] Instance by_popularity_desc_total : Total Mongo.by_popularity_desc.
Proof. unfold Mongo.by_popularity_desc. intros x y. lia. Qed.
#[local] Instance by_matches_desc_trans : Transitive Recommender.by_matches_desc.
Proof. unfold Recommender.by_matches_desc. intros x y z. lia. Qed.
#[local] Instance by_matches_desc_total : Total Recommender.by_matches_desc.
Proof. unfold Recommender.by_matches_desc. intros x y. lia. Qed.

(** ** Hybrid Recommender: document retrieval *)

(** C5. Document retrieval.  The returned songs are the projections
    (track name, artists, popularity, genre and nothing else) of some of
    the stored tracks whose [artists] field is one of the given names,
    each such track used at most as often as it is stored: the matching
    tracks split into the ones kept and the ones left out, and no track
    left out is more popular than a track kept.  The songs are in
    descending order of popularity; there are 15 of them, or as many as
    there are matching tracks when those are fewer, and in that case they
    are the projections of all matching tracks. *)
Theorem top_songs_for_artists (tracks : Mongo.collection) (artists_list : list string) :
  let songs := Recommender.get_top_songs_for_artists tracks artists_list in
  let matching := filter (λ d, Mongo.artists d ∈ artists_list) (Mongo.docs tracks) in
  (∀ s, s ∈ songs →
     ∃ d, d ∈ Mongo.docs tracks ∧ Mongo.artists d ∈ artists_list ∧ s = Mongo.project d)
  ∧ StronglySorted (λ x y, (Mongo.s_popularity y ≤ Mongo.s_popularity x)%Z) songs
  ∧ length songs = 15 `min` length matching
  ∧ (∀ d, d ∈ Mongo.docs tracks → Mongo.artists d ∈ artists_list →
       Mongo.project d ∈ songs
       ∨ ∀ s, s ∈ songs → (Mongo.popularity d ≤ Mongo.s_popularity s)%Z)
  ∧ (∃ kept left_out,
       matching ≡ₚ kept ++ left_out
       ∧ songs = Mongo.project <$> kept
       ∧ ∀ d k, d ∈ left_out → k ∈ kept →
           (Mongo.popularity d ≤ Mongo.popularity k)%Z)
  ∧ (length matching ≤ 15 → songs ≡ₚ Mongo.project <$> matching).
Proof.
  intros songs matching. subst songs. unfold Recommender.get_top_songs_for_artists.
  fold matching. split; [|split; [|split; [|split; [|split]]]].
  - intros s (d & -> & Hd)%list_elem_of_fmap. exists d.
    apply top_elem_of in Hd. apply list_elem_of_filter in Hd as [? ?]. done.
  - eapply StronglySorted_fmap; [|apply (top_sorted Mongo.by_popularity_desc)].
    done.
  - by rewrite length_fmap, top_length.
  - intros d Hd Ha.
    assert (d ∈ matching) as Hm by (by apply list_elem_of_filter).
    destruct (top_best Mongo.by_popularity_desc 15 matching d Hm) as [Hin|Hle].
    + left. by apply list_elem_of_fmap_2.
    + right. intros s (d' & -> & Hd')%list_elem_of_fmap. by apply Hle.
  - destruct (top_split Mongo.by_popularity_desc 15 matching) as [Hperm Hle].
    exists (take 15 (merge_sort Mongo.by_popularity_desc matching)),
           (drop 15 (merge_sort Mongo.by_popularity_desc matching)).
    split; [done|]. split; [done|]. intros d k Hd Hk. by apply (Hle d k).
  - intros Hlen. by rewrite (top_all Mongo.by_popularity_desc 15 matching Hlen).
Qed.

(** ** Hybrid Recommender: connections *)

Lemma main_without_peers g tracks input :
  Recommender.get_similar_artists g (Py.strip input) = [] →
  Recommender.main g tracks input
  = ({| Recommender.neo := true; Recommender.mongo_client := true |},
     Recommender.NoSimilarArtists).
Proof. intros H. unfold Recommender.main. by rewrite H. Qed.

Lemma main_with_peers g tracks input :
  Recommender.get_similar_artists g (Py.strip input) ≠ [] →
  (Recommender.main g tracks input).1
  = {| Recommender.neo := false; Recommender.mongo_client := false |}.
Proof.
  intros H. unfold Recommender.main.
  by destruct (Recommender.get_similar_artists g (Py.strip input)).
Qed.

(** C6. Connections on the early exit.  With an empty graph store the
    seed artist "A" has no peers; [main] then returns at once, and both
    connections are still open when it does: the two [close] calls are
    only reached on the path that prints recommendations. *)
Theorem early_return_leaves_connections_open (tracks : Mongo.collection) :
  Recommender.main Neo.empty tracks "A"
  = ({| Recommender.neo := true; Recommender.mongo_client := true |},
     Recommender.NoSimilarArtists).
Proof. by apply main_without_peers. Qed.

(** ** Graph Store: finding nodes *)

Lemma elem_of_find_from pattern i ns j :
  j ∈ Neo.find_from pattern i ns
  ↔ i ≤ j ∧ ∃ n, ns !! (j - i) = Some n ∧ Neo.key_of n = pattern.
Proof.
  revert i. induction ns as [|n ns IH]; intros i; simpl.
  - rewrite elem_of_nil. split; [done|]. by intros [_ (n & ? & _)].
  - assert (j ∈ Neo.find_from pattern (S i) ns
            ↔ i < j ∧ ∃ n', (n :: ns) !! (j - i) = Some n' ∧ Neo.key_of n' = pattern)
      as Htail.
    { rewrite IH. split.
      - intros [Hle (n' & Hn' & Hk)]. split; [lia|]. exists n'. split; [|done].
        replace (j - i) with (S (j - S i)) by lia. done.
      - intros [Hlt (n' & Hn' & Hk)]. split; [lia|]. exists n'. split; [|done].
        replace (j - i) with (S (j - S i)) in Hn' by lia. done. }
    unfold Neo.matches. case_bool_decide as Hn.
    + rewrite elem_of_cons, Htail. split.
      * intros [-> | [Hlt H]]; [|split; [lia|done]].
        split; [done|]. exists n. by rewrite Nat.sub_diag.
      * intros [Hle H]. destruct (decide (j = i)) as [->|]; [by left|].
        right. split; [lia|done].
    + rewrite Htail. split.
      * intros [Hlt H]. split; [lia|done].
      * intros [Hle (n' & Hn' & Hk)].
        destruct (decide (j = i)) as [->|].
        -- rewrite Nat.sub_diag in Hn'. simpl in Hn'. congruence.
        -- split; [lia|]. by exists n'.
Qed.

Lemma elem_of_find_nodes pattern g j :
  j ∈ Neo.find_nodes pattern g
  ↔ ∃ n, Neo.nodes g !! j = Some n ∧ Neo.key_of n = pattern.
Proof.
  unfold Neo.find_nodes. rewrite elem_of_find_from, Nat.sub_0_r.
  split; [by intros [_ ?] | intros ?; split; [lia|done]].
Qed.

(** ** Hybrid Recommender: graph expansion *)

Lemma elem_of_collect_genres table p :
  p ∈ Recommender.collect_genres table →
  ∃ b, b ∈ table ∧ Recommender.artist p = b.2.2
       ∧ Recommender.matches p = length (Recommender.genres p)
       ∧ NoDup (Recommender.genres p).
Proof.
  unfold Recommender.collect_genres.
  intros (other & -> & Ho)%list_elem_of_fmap.
  apply elem_of_remove_dups, list_elem_of_fmap in Ho as (b & -> & Hb).
  exists b. simpl. repeat split; [done|]. apply NoDup_remove_dups.
Qed.

Lemma elem_of_get_similar_artists g artist_name p :
  p ∈ Recommender.get_similar_artists g artist_name →
  p ∈ Recommender.collect_genres
        (Recommender.where_other_not_seed
           (Recommender.match_other g (Recommender.match_seed g artist_name))).
Proof. unfold Recommender.get_similar_artists. apply top_elem_of. Qed.

(** C4. Shape of the peer list.  For every returned peer the match count
    is the length of its shared-genres list and that list has no repeated
    name; the peers are in descending order of match count; and at most
    20 are returned. *)
Theorem similar_artists_counts_order_cap (g : Neo.graph) (artist_name : string) :
  let peers := Recommender.get_similar_artists g artist_name in
  Forall (λ p, Recommender.matches p = length (Recommender.genres p)
               ∧ NoDup (Recommender.genres p)) peers
  ∧ StronglySorted (λ p q, Recommender.matches q ≤ Recommender.matches p) peers
  ∧ length peers ≤ 20.
Proof.
  intros peers. subst peers. repeat split.
  - apply Forall_forall. intros p Hp%elem_of_get_similar_artists.
    apply elem_of_collect_genres in Hp as (b & _ & _ & ? & ?). done.
  - apply (top_sorted Recommender.by_matches_desc).
  - unfold Recommender.get_similar_artists.
    rewrite (top_length Recommender.by_matches_desc). apply Nat.le_min_l.
Qed.

(** ** Graph Store: the [MERGE] and [SET] clauses *)

Lemma key_of_idemp n : Neo.key_of (Neo.key_of n) = Neo.key_of n.
Proof. by destruct n. Qed.

Lemma find_from_app pattern i l l' :
  Neo.find_from pattern i (l ++ l')
  = Neo.find_from pattern i l ++ Neo.find_from pattern (i + length l) l'.
Proof.
  revert i. induction l as [|n l IH]; intros i; simpl.
  - by rewrite Nat.add_0_r.
  - replace (i + S (length l)) with (S i + length l) by lia.
    destruct (Neo.matches pattern n); by rewrite IH.
Qed.

Lemma find_from_nil pattern i l :
  pattern ∉ Neo.key_of <$> l → Neo.find_from pattern i l = [].
Proof.
  revert i. induction l as [|n l IH]; intros i; simpl; [done|].
  rewrite not_elem_of_cons. intros [Hn Hl]. unfold Neo.matches.
  rewrite bool_decide_eq_false_2 by done. by apply IH.
Qed.

Lemma find_from_nil_inv pattern i l :
  Neo.find_from pattern i l = [] → pattern ∉ Neo.key_of <$> l.
Proof.
  revert i. induction l as [|n l IH]; intros i; simpl.
  - intros _. apply not_elem_of_nil.
  - unfold Neo.matches. case_bool_decide as Hn; [done|].
    intros Hl%IH. rewrite not_elem_of_cons. split; [congruence|done].
Qed.

Lemma find_from_keys pattern i l :
  Neo.find_from pattern i (Neo.key_of <$> l) = Neo.find_from pattern i l.
Proof.
  revert i. induction l as [|n l IH]; intros i; simpl; [done|].
  unfold Neo.matches. rewrite key_of_idemp, IH. done.
Qed.

Lemma find_nodes_keys pattern g g' :
  keys g = keys g' → Neo.find_nodes pattern g = Neo.find_nodes pattern g'.
Proof.
  unfold Neo.find_nodes, keys. intros H.
  by rewrite <- (find_from_keys _ _ (Neo.nodes g)), H, find_from_keys.
Qed.

Lemma find_nodes_nil pattern g : pattern ∉ keys g → Neo.find_nodes pattern g = [].
Proof. apply find_from_nil. Qed.

Lemma find_nodes_elem pattern g : pattern ∈ keys g → Neo.find_nodes pattern g ≠ [].
Proof. intros H Hnil. by apply find_from_nil_inv in Hnil. Qed.

Lemma keys_are_keys g k : k ∈ keys g → Neo.key_of k = k.
Proof. intros (n & -> & _)%list_elem_of_fmap. apply key_of_idemp. Qed.

(** Extension *)


Lemma extends_trans g1 g2 g3 : extends g1 g2 → extends g2 g3 → extends g1 g3.
Proof.
  intros (f1 & H1 & Hf1 & Hr1) (f2 & H2 & Hf2 & Hr2).
  exists (f1 ++ f2). rewrite H2, H1, app_assoc. repeat split; [|auto].
  intros k [Hk|Hk]%elem_of_app; [auto|].
  intros Hk1. apply (Hf2 k Hk). rewrite H1, elem_of_app. auto.
Qed.

Lemma extends_keys g g' k : extends g g' → k ∈ keys g → k ∈ keys g'.
Proof. intros (f & -> & _) ?. rewrite elem_of_app. auto. Qed.

Lemma extends_find g g' pattern :
  extends g g' → pattern ∈ keys g →
  Neo.find_nodes pattern g' = Neo.find_nodes pattern g.
Proof.
  intros (fresh & Hk & Hf & _) Hp.
  unfold Neo.find_nodes.
  rewrite <- (find_from_keys _ _ (Neo.nodes g')), <- (find_from_keys _ _ (Neo.nodes g)).
  fold (keys g) (keys g'). rewrite Hk, find_from_app.
  rewrite (find_from_nil _ _ fresh), app_nil_r; [done|].
  intros (k & Hpk & Hkf)%list_elem_of_fmap.
  assert (Neo.key_of k = k) as Hkk.
  { apply (keys_are_keys g'). rewrite Hk, elem_of_app. auto. }
  apply (Hf k Hkf). by rewrite <- Hkk, <- Hpk.
Qed.

Lemma extends_same_keys g g' :
  keys g' = keys g → (∀ r, r ∈ Neo.rels g → r ∈ Neo.rels g') → extends g g'.
Proof.
  intros Hk Hr. exists []. rewrite app_nil_r. repeat split; [done| |done].
  by intros k ?%elem_of_nil.
Qed.

Lemma find_from_fresh pattern i extra :
  (∀ n, n ∈ extra → Neo.key_of n = n) → pattern ∉ extra →
  Neo.find_from pattern i extra = [].
Proof.
  intros Hkey Hp. apply find_from_nil.
  intros (n & -> & Hn)%list_elem_of_fmap. by rewrite (Hkey n Hn) in Hp.
Qed.

Lemma merge_nodes_spec {A B} (pattern : A → Neo.node) (bind : A → nat → B) g t g' t' :
  (∀ a, Neo.key_of (pattern a) = pattern a) →
  Neo.merge_nodes pattern bind g t = (g', t') →
  ∃ extra,
    g' = {| Neo.nodes := Neo.nodes g ++ extra; Neo.rels := Neo.rels g |}
    ∧ (∀ n, n ∈ extra → n ∈ pattern <$> t ∧ n ∉ keys g)
    ∧ (∀ a, a ∈ t → pattern a ∈ keys g')
    ∧ t' = a ← t; bind a <$> Neo.find_nodes (pattern a) g'.
Proof.
  intros Hkey. revert g g' t'. induction t as [|a t IH]; intros g g' t' H.
  - injection H as <- <-. exists []. rewrite app_nil_r.
    split; [by destruct g|].
    split; [intros n Hn; by apply elem_of_nil in Hn|].
    split; [intros a Ha; by apply elem_of_nil in Ha|done].
  - simpl in H. unfold Neo.merge_node in H.
    destruct (Neo.find_nodes (pattern a) g) as [|i ids] eqn:Hf.
    + destruct (Neo.merge_nodes pattern bind _ t) as [g2 out] eqn:E.
      injection H as <- <-.
      apply IH in E as (extra & -> & Hextra & Hin & ->).
      cbn [Neo.nodes Neo.rels] in *.
      assert (pattern a ∉ keys g) as Hfresh by (by apply find_from_nil_inv in Hf).
      exists (pattern a :: extra).
      split; [by rewrite <- app_assoc|]. split; [|split].
      * intros n [->|Hn]%elem_of_cons.
        -- split; [left|done].
        -- destruct (Hextra n Hn) as [Hn1 Hn2]. split; [by right|].
           intros Hg. apply Hn2. unfold keys. simpl.
           rewrite fmap_app, elem_of_app. by left.
      * intros a' [->|Ha']%elem_of_cons; [|by apply Hin].
        unfold keys. simpl. rewrite !fmap_app. simpl.
        rewrite Hkey, !elem_of_app, list_elem_of_singleton. auto.
      * rewrite bind_cons. f_equal. f_equal.
        unfold Neo.find_nodes in *. cbn [Neo.nodes].
        rewrite !find_from_app, Hf. simpl. unfold Neo.matches.
        rewrite bool_decide_eq_true_2 by apply Hkey.
        rewrite find_from_fresh; [done| |].
        -- intros n Hn. destruct (Hextra n Hn) as [(a' & -> & _)%list_elem_of_fmap _].
           apply Hkey.
        -- intros Hn. destruct (Hextra _ Hn) as [_ Hn2]. apply Hn2.
           unfold keys. simpl. rewrite fmap_app. simpl.
           rewrite Hkey, elem_of_app, list_elem_of_singleton. auto.
    + destruct (Neo.merge_nodes pattern bind g t) as [g2 out] eqn:E.
      injection H as <- <-.
      apply IH in E as (extra & -> & Hextra & Hin & ->).
      cbn [Neo.nodes Neo.rels] in *.
      exists extra. split; [done|]. split; [|split].
      * intros n Hn. destruct (Hextra n Hn). split; [by right|done].
      * intros a' [->|Ha']%elem_of_cons; [|by apply Hin].
        unfold keys. simpl. rewrite fmap_app, elem_of_app. left.
        apply dec_stable. intros Hn. apply find_nodes_nil in Hn. congruence.
      * rewrite bind_cons. f_equal. f_equal.
        unfold Neo.find_nodes in *. cbn [Neo.nodes].
        rewrite find_from_app, Hf, find_from_fresh, app_nil_r; [done| |].
        -- intros n Hn. destruct (Hextra n Hn) as [(a' & -> & _)%list_elem_of_fmap _].
           apply Hkey.
        -- intros Hn. destruct (Hextra _ Hn) as [_ Hn2]. apply Hn2.
           apply dec_stable. intros Hn'. apply find_nodes_nil in Hn'.
           unfold Neo.find_nodes in Hn'. congruence.
Qed.

Lemma merge_rel_spec r g g' k :
  Neo.merge_rel r g = (g', k) →
  k ≠ 0 ∧ r ∈ Neo.rels g'
  ∧ ((r ∈ Neo.rels g ∧ g' = g)
     ∨ ((r ∉ Neo.rels g)
        ∧ g' = {| Neo.nodes := Neo.nodes g; Neo.rels := Neo.rels g ++ [r] |})).
Proof.
  unfold Neo.merge_rel.
  destruct (length (filter (λ r', r' = r) (Neo.rels g))) as [|k'] eqn:Hlen.
  - intros [= <- <-]. simpl. apply nil_length_inv in Hlen.
    assert (r ∉ Neo.rels g) as Hr.
    { intros Hr. assert (r ∈ filter (λ r', r' = r) (Neo.rels g)) as Hin
        by (by apply list_elem_of_filter).
      rewrite Hlen in Hin. by apply elem_of_nil in Hin. }
    split; [done|]. split; [|by right].
    rewrite elem_of_app, list_elem_of_singleton. by right.
  - intros [= <- <-].
    assert (r ∈ Neo.rels g) as Hr.
    { destruct (filter (λ r', r' = r) (Neo.rels g)) as [|x xs] eqn:E; [done|].
      assert (x ∈ filter (λ r', r' = r) (Neo.rels g)) as Hx by (rewrite E; left).
      by apply list_elem_of_filter in Hx as [-> ?]. }
    split; [done|]. split; [done|]. by left.
Qed.

Lemma merge_rels_spec {A} (edge : A → Neo.rel) g t g' t' :
  Neo.merge_rels edge g t = (g', t') →
  ∃ extra,
    g' = {| Neo.nodes := Neo.nodes g; Neo.rels := Neo.rels g ++ extra |}
    ∧ (∀ r, r ∈ extra → r ∈ edge <$> t ∧ r ∉ Neo.rels g)
    ∧ (∀ a, a ∈ t → edge a ∈ Neo.rels g')
    ∧ (∀ x, x ∈ t' ↔ x ∈ t).
Proof.
  revert g g' t'. induction t as [|a t IH]; intros g g' t' H.
  - injection H as <- <-. exists []. rewrite app_nil_r.
    split; [by destruct g|].
    split; [intros n Hn; by apply elem_of_nil in Hn|].
    split; [intros a Ha; by apply elem_of_nil in Ha|done].
  - simpl in H.
    destruct (Neo.merge_rel (edge a) g) as [g1 k] eqn:E1.
    destruct (Neo.merge_rels edge g1 t) as [g2 out] eqn:E2.
    injection H as <- <-.
    apply merge_rel_spec in E1 as (Hk & Hr1 & Hcase).
    apply IH in E2 as (extra & -> & Hextra & Hin & Hout).
    assert (∀ x, x ∈ replicate k a ++ out ↔ x ∈ a :: t) as Helem.
    { intros x. rewrite elem_of_app, elem_of_replicate, elem_of_cons, Hout.
      split; [intros [[-> _]|?]; auto | intros [->|?]; auto]. }
    destruct Hcase as [[Hr ->]|[Hr ->]]; cbn [Neo.nodes Neo.rels] in *.
    + exists extra. split; [done|]. split; [|split; [|done]].
      * intros r Hn. destruct (Hextra r Hn). split; [|done].
        rewrite fmap_cons. by right.
      * intros a' [->|Ha']%elem_of_cons; [|by apply Hin].
        rewrite elem_of_app. by left.
    + exists (edge a :: extra).
      split; [by rewrite <- app_assoc|]. split; [|split; [|done]].
      * intros r [->|Hn]%elem_of_cons.
        -- split; [|done]. rewrite fmap_cons. left.
        -- destruct (Hextra r Hn) as [? Hn2]. split; [rewrite fmap_cons; by right|].
           intros Hg. apply Hn2. rewrite elem_of_app. by left.
      * intros a' [->|Ha']%elem_of_cons; [|by apply Hin].
        rewrite !elem_of_app, list_elem_of_singleton. auto.
Qed.

(** The [SET] clause *)

Lemma set_track_names_nodes {A} (song : A → nat) (value : A → option string) g t :
  Neo.set_track_names song value g t
  = {| Neo.nodes :=
         foldl (λ ns a, alter (Neo.set_track_name (value a)) (song a) ns) (Neo.nodes g) t;
       Neo.rels := Neo.rels g |}.
Proof.
  revert g. induction t as [|a t IH]; intros g; simpl; [by destruct g|].
  unfold Neo.set_track_names in *. simpl. by rewrite IH.
Qed.

Lemma alter_found (f : Neo.node → Neo.node) pattern pre ns :
  foldl (λ l id, alter f id l) (pre ++ ns) (Neo.find_from pattern (length pre) ns)
  = pre ++ ((λ n, if Neo.matches pattern n then f n else n) <$> ns).
Proof.
  revert pre. induction ns as [|n ns IH]; intros pre; [done|].
  rewrite fmap_cons. cbn [Neo.find_from].
  destruct (Neo.matches pattern n) eqn:Hn; cbn [foldl].
  - rewrite alter_app_r_alt, Nat.sub_diag by done.
    change (alter f 0 (n :: ns)) with (f n :: ns).
    specialize (IH (pre ++ [f n])). rewrite length_app, Nat.add_1_r, <- !app_assoc in IH.
    done.
  - specialize (IH (pre ++ [n])). rewrite length_app, Nat.add_1_r, <- !app_assoc in IH.
    done.
Qed.

Lemma key_of_set_row r n : Neo.key_of (set_row r n) = Neo.key_of n.
Proof. unfold set_row. destruct (Neo.matches _ n); [|done]. by destruct n. Qed.

Lemma key_of_rename_node b n : Neo.key_of (rename_node b n) = Neo.key_of n.
Proof.
  revert n. induction b as [|r b IH]; intros n; simpl; [done|].
  unfold rename_node in *. simpl. by rewrite IH, key_of_set_row.
Qed.

Lemma keys_rename b g : keys (rename b g) = keys g.
Proof.
  unfold keys, rename. simpl. rewrite <- list_fmap_compose.
  apply list_fmap_ext. intros _ n _. apply key_of_rename_node.
Qed.

Lemma rename_app b b' g : rename (b ++ b') g = rename b' (rename b g).
Proof.
  unfold rename. simpl. f_equal. rewrite <- list_fmap_compose.
  apply list_fmap_ext. intros _ n _. unfold rename_node. simpl. by rewrite foldl_app.
Qed.

Lemma rename_cons r b g : rename (r :: b) g = rename b (rename [r] g).
Proof. apply (rename_app [r] b). Qed.

Lemma set_one_row g (r : Builder.row) :
  Neo.set_track_names snd (λ x : Builder.row * nat, Builder.track_name x.1) g
    (pair r <$> Neo.find_nodes (Builder.song_node r) g)
  = rename [r] g.
Proof.
  rewrite set_track_names_nodes. unfold rename. f_equal.
  rewrite foldl_fmap. simpl.
  apply (alter_found (Neo.set_track_name (Builder.track_name r)) (Builder.song_node r) []).
Qed.

Lemma set_track_names_app {A} (song : A → nat) (value : A → option string) g t t' :
  Neo.set_track_names song value g (t ++ t')
  = Neo.set_track_names song value (Neo.set_track_names song value g t) t'.
Proof. unfold Neo.set_track_names. by rewrite foldl_app. Qed.

Lemma set_rows g b :
  Neo.set_track_names snd (λ x : Builder.row * nat, Builder.track_name x.1) g
    (r ← b; pair r <$> Neo.find_nodes (Builder.song_node r) g)
  = rename b g.
Proof.
  revert g. induction b as [|r b IH]; intros g.
  - unfold rename. simpl. rewrite list_fmap_id. by destruct g.
  - rewrite bind_cons, set_track_names_app, set_one_row, (rename_cons r b), <- IH.
    f_equal. apply list_bind_ext; [|done]. intros r'. f_equal.
    apply find_nodes_keys. by rewrite keys_rename.
Qed.

(** ** Graph Builder: one batch *)

Lemma elem_of_bind_pair {A B} (f : A → list B) (t : list A) (x : A * B) :
  x ∈ (a ← t; pair a <$> f a) ↔ x.1 ∈ t ∧ x.2 ∈ f x.1.
Proof.
  rewrite list_elem_of_bind. split.
  - intros (a & (y & -> & Hy)%list_elem_of_fmap & Ha). done.
  - intros [H1 H2]. exists x.1. split; [|done].
    apply list_elem_of_fmap. exists x.2. split; [by destruct x|done].
Qed.

Lemma graph_app_nil g : {| Neo.nodes := Neo.nodes g ++ []; Neo.rels := Neo.rels g |} = g.
Proof. destruct g. simpl. by rewrite app_nil_r. Qed.

Lemma insert_batch_clauses g b :
  ∃ (songs artists genres : list Neo.node) (e1 e2 e3 : list Neo.rel)
    (t4 : list (Builder.row * nat * nat * nat)),
    let g1 := {| Neo.nodes := Neo.nodes g ++ songs; Neo.rels := Neo.rels g |} in
    let g2 := rename b g1 in
    let g3 := {| Neo.nodes := Neo.nodes g2 ++ artists; Neo.rels := Neo.rels g |} in
    let g4 := {| Neo.nodes := Neo.nodes g3 ++ genres; Neo.rels := Neo.rels g |} in
    let g5 := {| Neo.nodes := Neo.nodes g4; Neo.rels := Neo.rels g ++ e1 |} in
    let g6 := {| Neo.nodes := Neo.nodes g4; Neo.rels := Neo.rels g5 ++ e2 |} in
    let g7 := {| Neo.nodes := Neo.nodes g4; Neo.rels := Neo.rels g6 ++ e3 |} in
    Builder.insert_batch g b = g7
    ∧ (∀ n, n ∈ songs → n ∈ Builder.song_node <$> b ∧ n ∉ keys g)
    ∧ (∀ r, r ∈ b → Builder.song_node r ∈ keys g1)
    ∧ (∀ n, n ∈ artists → n ∈ Builder.artist_node <$> b ∧ n ∉ keys g2)
    ∧ (∀ r, r ∈ b → Builder.artist_node r ∈ keys g3)
    ∧ (∀ n, n ∈ genres → n ∈ Builder.genre_node <$> b ∧ n ∉ keys g3)
    ∧ (∀ r, r ∈ b → Builder.genre_node r ∈ keys g4)
    ∧ (∀ x, x ∈ t4 ↔
         Builder.b_row x ∈ b
         ∧ Builder.b_song x ∈ Neo.find_nodes (Builder.song_node (Builder.b_row x)) g1
         ∧ Builder.b_artist x ∈ Neo.find_nodes (Builder.artist_node (Builder.b_row x)) g3
         ∧ Builder.b_genre x ∈ Neo.find_nodes (Builder.genre_node (Builder.b_row x)) g4)
    ∧ (∀ e, e ∈ e1 → e ∈ Builder.by_artist <$> t4 ∧ e ∉ Neo.rels g)
    ∧ (∀ x, x ∈ t4 → Builder.by_artist x ∈ Neo.rels g5)
    ∧ (∀ e, e ∈ e2 → e ∈ Builder.in_genre <$> t4 ∧ e ∉ Neo.rels g5)
    ∧ (∀ x, x ∈ t4 → Builder.in_genre x ∈ Neo.rels g6)
    ∧ (∀ e, e ∈ e3 → e ∈ Builder.plays_genre <$> t4 ∧ e ∉ Neo.rels g6)
    ∧ (∀ x, x ∈ t4 → Builder.plays_genre x ∈ Neo.rels g7).
Proof.
  unfold Builder.insert_batch.
  destruct (Neo.merge_nodes Builder.song_node pair g b) as [g1 t1] eqn:E1.
  apply merge_nodes_spec in E1 as (songs & -> & Hsongs & Hs & Et1); [|done].
  assert (∀ x, x ∈ t1 ↔ x.1 ∈ b ∧ x.2 ∈ Neo.find_nodes (Builder.song_node x.1)
            {| Neo.nodes := Neo.nodes g ++ songs; Neo.rels := Neo.rels g |}) as Ht1.
  { intros x. rewrite Et1.
    apply (elem_of_bind_pair (λ a, Neo.find_nodes (Builder.song_node a) _)). }
  assert (Neo.set_track_names snd (λ x : Builder.row * nat, Builder.track_name x.1)
            {| Neo.nodes := Neo.nodes g ++ songs; Neo.rels := Neo.rels g |} t1
          = rename b {| Neo.nodes := Neo.nodes g ++ songs; Neo.rels := Neo.rels g |})
    as -> by (rewrite Et1; apply set_rows).
  clear Et1.
  destruct (Neo.merge_nodes (λ b, Builder.artist_node b.1) pair _ t1)
    as [g3 t3] eqn:E3.
  apply merge_nodes_spec in E3 as (artists & -> & Hartists & Ha & Et3); [|done].
  cbn [Neo.rels Neo.nodes rename] in *.
  assert (∀ x, x ∈ t3 ↔ x.1 ∈ t1 ∧ x.2 ∈ Neo.find_nodes (Builder.artist_node x.1.1)
            {| Neo.nodes := (rename_node b <$> Neo.nodes g ++ songs) ++ artists;
               Neo.rels := Neo.rels g |}) as Ht3.
  { intros x. rewrite Et3.
    apply (elem_of_bind_pair (λ a, Neo.find_nodes (Builder.artist_node a.1) _)). }
  clear Et3.
  destruct (Neo.merge_nodes (λ b, Builder.genre_node b.1.1) pair _ t3)
    as [g4 t4] eqn:E4.
  apply merge_nodes_spec in E4 as (genres & -> & Hgenres & Hg & Et4); [|done].
  cbn [Neo.rels Neo.nodes] in *.
  assert (∀ x, x ∈ t4 ↔ x.1 ∈ t3 ∧ x.2 ∈ Neo.find_nodes (Builder.genre_node x.1.1.1)
            {| Neo.nodes := ((rename_node b <$> Neo.nodes g ++ songs) ++ artists) ++ genres;
               Neo.rels := Neo.rels g |}) as Ht4.
  { intros x. rewrite Et4.
    apply (elem_of_bind_pair (λ a, Neo.find_nodes (Builder.genre_node a.1.1) _)). }
  clear Et4.
  destruct (Neo.merge_rels Builder.by_artist _ t4) as [g5 t5] eqn:E5.
  apply merge_rels_spec in E5 as (e1 & -> & He1 & Hin1 & Ht5).
  destruct (Neo.merge_rels Builder.in_genre _ t5) as [g6 t6] eqn:E6.
  apply merge_rels_spec in E6 as (e2 & -> & He2 & Hin2 & Ht6).
  destruct (Neo.merge_rels Builder.plays_genre _ t6) as [g7 t7] eqn:E7.
  apply merge_rels_spec in E7 as (e3 & -> & He3 & Hin3 & Ht7).
  cbn [Neo.rels Neo.nodes] in *.
  assert (∀ r, r ∈ b → ∃ s, (r, s) ∈ t1) as Hrow1.
  { intros r Hr. pose proof (find_nodes_elem _ _ (Hs r Hr)) as Hne.
    destruct (Neo.find_nodes (Builder.song_node r) _) as [|s ?] eqn:E; [done|].
    exists s. apply Ht1. simpl. rewrite E. split; [done|left]. }
  assert (∀ r, r ∈ b → Builder.artist_node r ∈ keys
            {| Neo.nodes := (rename_node b <$> Neo.nodes g ++ songs) ++ artists;
               Neo.rels := Neo.rels g |}) as Ha'.
  { intros r Hr. destruct (Hrow1 r Hr) as [s Hrs]. apply (Ha _ Hrs). }
  assert (∀ r, r ∈ b → ∃ s a, (r, s, a) ∈ t3) as Hrow3.
  { intros r Hr. destruct (Hrow1 r Hr) as [s Hrs].
    pose proof (find_nodes_elem _ _ (Ha' r Hr)) as Hne.
    destruct (Neo.find_nodes (Builder.artist_node r) _) as [|a ?] eqn:E; [done|].
    exists s, a. apply Ht3. simpl. rewrite E. split; [done|left]. }
  exists songs, artists, genres, e1, e2, e3, t4. cbn zeta.
  cbn [Neo.rels Neo.nodes rename].
  split; [done|]. split; [done|]. split; [done|].
  split.
  { intros n Hn. destruct (Hartists n Hn) as [(x & -> & Hx)%list_elem_of_fmap ?].
    split; [|done]. apply list_elem_of_fmap_2. by apply Ht1 in Hx as [? _]. }
  split; [done|].
  split.
  { intros n Hn. destruct (Hgenres n Hn) as [(x & -> & Hx)%list_elem_of_fmap ?].
    split; [|done]. apply list_elem_of_fmap_2.
    apply Ht3 in Hx as [Hx _]. by apply Ht1 in Hx as [? _]. }
  split.
  { intros r Hr. destruct (Hrow3 r Hr) as (s & a & Hrsa). apply (Hg _ Hrsa). }
  split.
  { intros [[[r s] a] gn]. rewrite Ht4, Ht3, Ht1. simpl.
    unfold Builder.b_row, Builder.b_song, Builder.b_artist, Builder.b_genre. simpl.
    tauto. }
  split; [done|]. split; [done|].
  split.
  { intros e He. destruct (He2 e He) as [(x & -> & Hx)%list_elem_of_fmap ?].
    split; [|done]. apply list_elem_of_fmap_2. by apply Ht5. }
  split.
  { intros x Hx. apply Hin2. by apply Ht5. }
  split.
  { intros e He. destruct (He3 e He) as [(x & -> & Hx)%list_elem_of_fmap ?].
    split; [|done]. apply list_elem_of_fmap_2. by apply Ht5, Ht6. }
  intros x Hx. apply Hin3. by apply Ht6, Ht5.
Qed.

Lemma fmap_fixed {A} (f : A → A) (l : list A) : (∀ x, x ∈ l → f x = x) → f <$> l = l.
Proof.
  intros H. rewrite <- (list_fmap_id l) at 2.
  apply list_fmap_ext. intros i x Hx. apply H. by eapply list_elem_of_lookup_2.
Qed.

Lemma keys_rename_nodes b (ns : list Neo.node) :
  Neo.key_of <$> (rename_node b <$> ns) = Neo.key_of <$> ns.
Proof.
  rewrite <- list_fmap_compose. apply list_fmap_ext. intros _ n _.
  apply key_of_rename_node.
Qed.

Lemma keys_of_patterns {A} (pattern : A → Neo.node) (t : list A) (l : list Neo.node) :
  (∀ a, Neo.key_of (pattern a) = pattern a) →
  (∀ n, n ∈ l → n ∈ pattern <$> t) →
  Neo.key_of <$> l = l.
Proof.
  intros Hkey Hl. apply fmap_fixed. intros n Hn.
  pose proof (Hl n Hn) as (a & -> & _)%list_elem_of_fmap. apply Hkey.
Qed.

(** The keys of the graph after a batch. *)
Lemma insert_batch_keys g b songs artists genres :
  (∀ n, n ∈ songs → n ∈ Builder.song_node <$> b) →
  (∀ n, n ∈ artists → n ∈ Builder.artist_node <$> b) →
  (∀ n, n ∈ genres → n ∈ Builder.genre_node <$> b) →
  Neo.key_of <$> (((rename_node b <$> Neo.nodes g ++ songs) ++ artists) ++ genres)
  = ((keys g ++ songs) ++ artists) ++ genres.
Proof.
  intros Hs Ha Hg. rewrite !fmap_app, !keys_rename_nodes.
  rewrite (keys_of_patterns Builder.song_node b songs) by done.
  rewrite (keys_of_patterns Builder.artist_node b artists) by done.
  rewrite (keys_of_patterns Builder.genre_node b genres) by done.
  done.
Qed.

Ltac batch_clauses g b :=
  destruct (insert_batch_clauses g b)
    as (songs & artists & genres & e1 & e2 & e3 & t4 & Heq & Hsongs & Hs
        & Hartists & Ha & Hgenres & Hg & Ht4 & He1 & Hin1 & He2 & Hin2 & He3 & Hin3);
  cbn zeta in *; cbn [Neo.rels Neo.nodes rename] in *;
  assert (∀ n, n ∈ songs → n ∈ Builder.song_node <$> b) as Hsongs'
    by (intros ? ?; by apply Hsongs);
  assert (∀ n, n ∈ artists → n ∈ Builder.artist_node <$> b) as Hartists'
    by (intros ? ?; by apply Hartists);
  assert (∀ n, n ∈ genres → n ∈ Builder.genre_node <$> b) as Hgenres'
    by (intros ? ?; by apply Hgenres);
  pose proof (insert_batch_keys g b songs artists genres Hsongs' Hartists' Hgenres')
    as Hkeys.

Lemma insert_batch_extends g b : extends g (Builder.insert_batch g b).
Proof.
  batch_clauses g b. rewrite Heq.
  exists (songs ++ artists ++ genres). unfold keys at 1. cbn [Neo.nodes Neo.rels].
  rewrite Hkeys, <- !app_assoc. split; [done|]. split.
  - intros k [Hk|[Hk|Hk]%elem_of_app]%elem_of_app Hg'.
    + by apply (Hsongs k).
    + apply (Hartists k Hk). rewrite keys_rename. unfold keys in *. cbn [Neo.nodes].
      rewrite fmap_app, elem_of_app. auto.
    + apply (Hgenres k Hk). unfold keys in *. cbn [Neo.nodes].
      rewrite !fmap_app, !keys_rename_nodes, !elem_of_app. auto.
  - intros r Hr. rewrite !elem_of_app. auto.
Qed.

Lemma closed_extends b g g' : closed b g → extends g g' → closed b g'.
Proof.
  intros Hc Hext r Hr. destruct (Hc r Hr) as (Hs & Ha & Hg & Hrel).
  split; [by eapply extends_keys|]. split; [by eapply extends_keys|].
  split; [by eapply extends_keys|].
  intros s a gn. rewrite !(extends_find g g') by done. intros Hs' Ha' Hg'.
  destruct (Hrel s a gn Hs' Ha' Hg') as (? & ? & ?).
  destruct Hext as (? & _ & _ & Hrels). repeat split; by apply Hrels.
Qed.

Lemma extends_rename b g : extends g (rename b g).
Proof. apply extends_same_keys; [apply keys_rename|done]. Qed.

(** After a batch, the graph is closed under it. *)
Lemma insert_batch_closed g b : closed b (Builder.insert_batch g b).
Proof.
  batch_clauses g b. rewrite Heq. clear Heq.
  set (g1 := {| Neo.nodes := Neo.nodes g ++ songs; Neo.rels := Neo.rels g |}) in *.
  set (g3 := {| Neo.nodes := (rename_node b <$> Neo.nodes g ++ songs) ++ artists;
                Neo.rels := Neo.rels g |}) in *.
  set (g4 := {| Neo.nodes := ((rename_node b <$> Neo.nodes g ++ songs) ++ artists) ++ genres;
                Neo.rels := Neo.rels g |}) in *.
  set (g7 := {| Neo.nodes := ((rename_node b <$> Neo.nodes g ++ songs) ++ artists) ++ genres;
                Neo.rels := ((Neo.rels g ++ e1) ++ e2) ++ e3 |}).
  assert (extends g3 g4) as H34.
  { exists genres. split; [|split; [|done]].
    - unfold keys, g3, g4. cbn [Neo.nodes]. rewrite (fmap_app _ _ genres).
      by rewrite (keys_of_patterns Builder.genre_node b genres).
    - intros k Hk. apply (Hgenres k Hk). }
  assert (extends g1 g3) as H13.
  { apply (extends_trans _ (rename b g1)); [apply extends_rename|].
    exists artists. split; [|split; [|done]].
    - unfold keys, g3, rename. cbn [Neo.nodes]. rewrite (fmap_app _ _ artists).
      by rewrite (keys_of_patterns Builder.artist_node b artists).
    - intros k Hk. apply (Hartists k Hk). }
  assert (∀ pattern, Neo.find_nodes pattern g7 = Neo.find_nodes pattern g4) as H47 by done.
  intros r Hr.
  pose proof (Hs r Hr) as Hrs. pose proof (Ha r Hr) as Hra. pose proof (Hg r Hr) as Hrg.
  split; [|split; [|split]].
  - change (keys g7) with (keys g4). eapply extends_keys; [|done].
    by apply (extends_trans _ g3).
  - change (keys g7) with (keys g4). by eapply extends_keys.
  - done.
  - intros s a gn. rewrite !H47.
    rewrite (extends_find g1 g4) by (by apply (extends_trans _ g3) || done).
    rewrite (extends_find g3 g4) by done.
    intros Hs' Ha' Hg'.
    assert ((r, s, a, gn) ∈ t4) as Hx by (by apply Ht4).
    unfold g7. cbn [Neo.rels]. rewrite !elem_of_app.
    pose proof (Hin1 _ Hx) as H1. pose proof (Hin2 _ Hx) as H2.
    pose proof (Hin3 _ Hx) as H3.
    rewrite !elem_of_app in H1. rewrite !elem_of_app in H2.
    rewrite !elem_of_app in H3. tauto.
Qed.

(** On a graph that is closed under the batch, only the [SET] clause
    has an effect. *)
Lemma insert_batch_on_closed g b : closed b g → Builder.insert_batch g b = rename b g.
Proof.
  intros Hc. batch_clauses g b. rewrite Heq. clear Heq.
  assert (songs = []) as ->.
  { destruct songs as [|n ?]; [done|]. exfalso.
    destruct (Hsongs n) as [(r & -> & Hr)%list_elem_of_fmap Hn]; [left|].
    apply Hn. by apply (Hc r Hr). }
  rewrite app_nil_r in *.
  assert (artists = []) as ->.
  { destruct artists as [|n ?]; [done|]. exfalso.
    destruct (Hartists n) as [(r & -> & Hr)%list_elem_of_fmap Hn]; [left|].
    apply Hn. rewrite keys_rename. by apply (Hc r Hr). }
  rewrite app_nil_r in *.
  assert (genres = []) as ->.
  { destruct genres as [|n ?]; [done|]. exfalso.
    destruct (Hgenres n) as [(r & -> & Hr)%list_elem_of_fmap Hn]; [left|].
    apply Hn. unfold keys. cbn [Neo.nodes]. rewrite keys_rename_nodes.
    by apply (Hc r Hr). }
  rewrite app_nil_r in *.
  assert (∀ pattern g', Neo.nodes g' = rename_node b <$> Neo.nodes g →
            Neo.find_nodes pattern g' = Neo.find_nodes pattern g) as Hfind.
  { intros pattern g' Hg'. apply find_nodes_keys. unfold keys.
    by rewrite Hg', keys_rename_nodes. }
  assert (∀ x, x ∈ t4 →
            Builder.by_artist x ∈ Neo.rels g ∧ Builder.in_genre x ∈ Neo.rels g
            ∧ Builder.plays_genre x ∈ Neo.rels g) as Hall.
  { intros [[[r s] a] gn] (Hr & Hs' & Ha' & Hg')%Ht4.
    unfold Builder.b_row, Builder.b_song, Builder.b_artist, Builder.b_genre in *.
    simpl in *. destruct (Hc r Hr) as (_ & _ & _ & Hrel). apply Hrel.
    - replace g with {| Neo.nodes := Neo.nodes g; Neo.rels := Neo.rels g |}
        by (by destruct g). done.
    - by rewrite <- (Hfind _ {| Neo.nodes := rename_node b <$> Neo.nodes g;
                                Neo.rels := Neo.rels g |} eq_refl).
    - by rewrite <- (Hfind _ {| Neo.nodes := rename_node b <$> Neo.nodes g;
                                Neo.rels := Neo.rels g |} eq_refl). }
  assert (e1 = []) as ->.
  { destruct e1 as [|e ?]; [done|]. exfalso.
    destruct (He1 e) as [(x & -> & Hx)%list_elem_of_fmap Hn]; [left|].
    apply Hn. by apply Hall. }
  rewrite app_nil_r in *.
  assert (e2 = []) as ->.
  { destruct e2 as [|e ?]; [done|]. exfalso.
    destruct (He2 e) as [(x & -> & Hx)%list_elem_of_fmap Hn]; [left|].
    apply Hn. by apply Hall. }
  rewrite app_nil_r in *.
  assert (e3 = []) as ->.
  { destruct e3 as [|e ?]; [done|]. exfalso.
    destruct (He3 e) as [(x & -> & Hx)%list_elem_of_fmap Hn]; [left|].
    apply Hn. by apply Hall. }
  rewrite app_nil_r. done.
Qed.

(** Track names: the last [SET] on a song decides. *)

Lemma set_track_name_set_row v r n :
  Neo.set_track_name v (set_row r n) = Neo.set_track_name v n.
Proof. unfold set_row. destruct (Neo.matches _ n); [|done]. by destruct n. Qed.

Lemma set_track_name_rename_node v b n :
  Neo.set_track_name v (rename_node b n) = Neo.set_track_name v n.
Proof.
  revert n. induction b as [|r b IH]; intros n; [done|].
  unfold rename_node in *. simpl. by rewrite IH, set_track_name_set_row.
Qed.

Lemma set_track_name_twice v v' n :
  Neo.set_track_name v (Neo.set_track_name v' n) = Neo.set_track_name v n.
Proof. by destruct n. Qed.

Lemma rename_node_app b b' n : rename_node (b ++ b') n = rename_node b' (rename_node b n).
Proof. unfold rename_node. by rewrite foldl_app. Qed.

Lemma rename_node_not_song b n :
  (∀ track_id track_name, n ≠ Neo.Song track_id track_name) → rename_node b n = n.
Proof.
  intros Hn. induction b as [|r b IH]; [done|].
  unfold rename_node in *. simpl.
  replace (set_row r n) with n; [done|].
  unfold set_row, Neo.matches. rewrite bool_decide_eq_false_2; [done|].
  destruct n; try done. by destruct (Hn track_id track_name).
Qed.

Lemma rename_node_cases b m :
  ((∀ m', Neo.key_of m' = Neo.key_of m → rename_node b m' = m')
   ∧ (∀ r, r ∈ b → Builder.song_node r ≠ Neo.key_of m))
  ∨ (∃ v, ∀ m', Neo.key_of m' = Neo.key_of m →
            rename_node b m' = Neo.set_track_name v m').
Proof.
  induction b as [|r b IH].
  - left. split; [done|]. by intros r ?%elem_of_nil.
  - assert (∀ m', rename_node (r :: b) m' = rename_node b (set_row r m')) as Hcons by done.
    destruct IH as [[Hid Hnone]|[v Hv]].
    + destruct (decide (Builder.song_node r = Neo.key_of m)) as [Hr|Hr].
      * right. exists (Builder.track_name r). intros m' Hm'.
        rewrite Hcons, Hid by (by rewrite key_of_set_row).
        unfold set_row, Neo.matches. by rewrite bool_decide_eq_true_2 by congruence.
      * left. split.
        -- intros m' Hm'. rewrite Hcons, Hid by (by rewrite key_of_set_row).
           unfold set_row, Neo.matches. by rewrite bool_decide_eq_false_2 by congruence.
        -- intros r' [-> | Hr']%elem_of_cons; [done|by apply Hnone].
    + right. exists v. intros m' Hm'.
      rewrite Hcons, Hv by (by rewrite key_of_set_row).
      apply set_track_name_set_row.
Qed.

(** Where the nodes of the graph after a batch come from. *)
Lemma insert_batch_nodes g b n :
  n ∈ Neo.nodes (Builder.insert_batch g b) →
  (∃ m, n = rename_node b m ∧ (m ∈ Neo.nodes g ∨ m ∈ Builder.song_node <$> b))
  ∨ (∀ track_id track_name, n ≠ Neo.Song track_id track_name).
Proof.
  batch_clauses g b. rewrite Heq. cbn [Neo.nodes].
  rewrite !elem_of_app.
  intros [[(m & -> & Hm)%list_elem_of_fmap | Hn] | Hn].
  - left. exists m. split; [done|].
    apply elem_of_app in Hm as [?|?]; auto.
  - right. by apply Hartists' in Hn as (r & -> & _)%list_elem_of_fmap.
  - right. by apply Hgenres' in Hn as (r & -> & _)%list_elem_of_fmap.
Qed.

Lemma settled_step rows g b :
  (∀ m, m ∈ Neo.nodes g → rename_node rows m = m) →
  ∀ n, n ∈ Neo.nodes (Builder.insert_batch g b) → rename_node (rows ++ b) n = n.
Proof.
  intros IH n [(m & -> & Hm)|Hn]%insert_batch_nodes.
  - rewrite rename_node_app.
    destruct (rename_node_cases b m) as [[Hid Hnone]|[v Hv]].
    + rewrite (Hid m) by done.
      destruct Hm as [Hm|(r & -> & Hr)%list_elem_of_fmap].
      * by rewrite (IH m Hm), Hid.
      * by destruct (Hnone r Hr).
    + rewrite (Hv m) by done.
      rewrite Hv by (by rewrite key_of_rename_node; destruct m).
      by rewrite set_track_name_rename_node, set_track_name_twice.
  - by apply rename_node_not_song.
Qed.

Lemma settled_batches bs g n :
  n ∈ Neo.nodes (foldl Builder.insert_batch g bs) → rename_node (concat bs) n = n.
Proof.
  revert n. induction bs as [|b bs IH] using rev_ind; intros n.
  - simpl. intros _. done.
  - rewrite foldl_app, concat_app. simpl. rewrite app_nil_r.
    by apply settled_step.
Qed.

(** ** Graph Builder: a second run *)

Lemma closed_batches bs g b :
  b ∈ bs → closed b (foldl Builder.insert_batch g bs).
Proof.
  induction bs as [|b' bs IH] using rev_ind; [by intros ?%elem_of_nil|].
  rewrite foldl_app. simpl. intros [Hb | ->%list_elem_of_singleton]%elem_of_app.
  - eapply closed_extends; [by apply IH|apply insert_batch_extends].
  - apply insert_batch_closed.
Qed.

Lemma rename_nil g : rename [] g = g.
Proof. unfold rename. simpl. rewrite list_fmap_id. by destruct g. Qed.

Lemma batches_on_closed bs g :
  (∀ b, b ∈ bs → closed b g) →
  foldl Builder.insert_batch g bs = rename (concat bs) g.
Proof.
  revert g. induction bs as [|b bs IH]; intros g Hc.
  - simpl. by rewrite rename_nil.
  - simpl. rewrite insert_batch_on_closed by (apply Hc; left).
    rewrite IH, <- rename_app; [done|].
    intros b' Hb'. eapply closed_extends; [|apply extends_rename].
    apply Hc. by right.
Qed.

Lemma batches_twice bs g :
  foldl Builder.insert_batch (foldl Builder.insert_batch g bs) bs
  = foldl Builder.insert_batch g bs.
Proof.
  rewrite batches_on_closed by (intros b Hb; by apply closed_batches).
  unfold rename. destruct (foldl Builder.insert_batch g bs) as [ns rs] eqn:E.
  simpl. f_equal. apply fmap_fixed. intros n Hn.
  apply (settled_batches bs g). by rewrite E.
Qed.

Lemma loop_store g cursor :
  Builder.store (Builder.loop g cursor)
  = foldl Builder.insert_batch g (Builder.written (Builder.loop g cursor))
  ∧ Builder.written (Builder.loop g cursor)
    = Builder.written (Builder.loop Neo.empty cursor)
  ∧ Builder.batch (Builder.loop g cursor)
    = Builder.batch (Builder.loop Neo.empty cursor).
Proof.
  induction cursor as [|d cursor (IHs & IHw & IHb)] using rev_ind; [done|].
  rewrite !loop_snoc. unfold Builder.step.
  destruct (Builder.doc_rows d) as [rows|]; [|done].
  cbn [Builder.batch]. rewrite IHb.
  case_bool_decide; cbn; [|done].
  rewrite foldl_app, <- IHs, IHw. done.
Qed.

Lemma build_batches g cursor :
  Builder.build g cursor = foldl Builder.insert_batch g (batches cursor).
Proof.
  unfold Builder.build, batches, Builder.main.
  destruct (loop_store g cursor) as (Hs & Hw & Hb). rewrite Hb.
  destruct (Builder.batch (Builder.loop Neo.empty cursor)) eqn:E.
  - by rewrite Hs, Hw.
  - cbn. rewrite foldl_app, <- Hw, <- Hs, Hb, E. done.
Qed.

(** ** Graph Builder: no duplicates *)

Lemma merge_nodes_unique {A B} (pattern : A → Neo.node) (bind : A → nat → B) g t :
  (∀ a, Neo.key_of (pattern a) = pattern a) →
  unique g → unique (Neo.merge_nodes pattern bind g t).1.
Proof.
  intros Hkey. revert g. induction t as [|a t IH]; intros g Hg; [done|].
  simpl. unfold Neo.merge_node.
  destruct (Neo.find_nodes (pattern a) g) as [|i ids] eqn:Hf.
  - destruct (Neo.merge_nodes pattern bind _ t) as [g2 out] eqn:E.
    change g2 with (g2, out).1. rewrite <- E. apply IH.
    destruct Hg as [Hn Hr]. split; [|done].
    unfold keys. cbn [Neo.nodes]. rewrite fmap_app. simpl. rewrite Hkey.
    apply NoDup_app. split; [done|]. split; [|apply NoDup_singleton].
    intros k Hk ->%list_elem_of_singleton.
    by apply find_from_nil_inv in Hf.
  - destruct (Neo.merge_nodes pattern bind g t) as [g2 out] eqn:E.
    change g2 with (g2, out).1. rewrite <- E. by apply IH.
Qed.

Lemma merge_rels_unique {A} (edge : A → Neo.rel) g t :
  unique g → unique (Neo.merge_rels edge g t).1.
Proof.
  revert g. induction t as [|a t IH]; intros g Hg; [done|].
  simpl. destruct (Neo.merge_rel (edge a) g) as [g1 k] eqn:E1.
  destruct (Neo.merge_rels edge g1 t) as [g2 out] eqn:E.
  change g2 with (g2, out).1. rewrite <- E. apply IH.
  apply merge_rel_spec in E1 as (_ & _ & [[_ ->]|[Hr ->]]); [done|].
  destruct Hg as [Hn Hrels]. split; [done|]. cbn [Neo.rels].
  apply NoDup_app. split; [done|]. split; [|apply NoDup_singleton].
  by intros r Hin ->%list_elem_of_singleton.
Qed.

Lemma set_track_names_unique {A} (song : A → nat) (value : A → option string) g t :
  unique g → unique (Neo.set_track_names song value g t).
Proof.
  revert g. induction t as [|a t IH]; intros g Hg; [done|].
  apply IH. destruct Hg as [Hn Hr]. split; [|done].
  unfold keys in *. cbn [Neo.nodes].
  replace (Neo.key_of <$> alter (Neo.set_track_name (value a)) (song a) (Neo.nodes g))
    with (Neo.key_of <$> Neo.nodes g); [done|].
  apply list_eq. intros i. rewrite !list_lookup_fmap.
  destruct (decide (i = song a)) as [->|Hi].
  - rewrite list_lookup_alter_eq. by destruct (Neo.nodes g !! song a) as [[| |]|].
  - by rewrite list_lookup_alter_ne.
Qed.

Lemma insert_batch_unique g b : unique g → unique (Builder.insert_batch g b).
Proof.
  intros Hg. unfold Builder.insert_batch.
  pose proof (merge_nodes_unique Builder.song_node pair g b (λ _, eq_refl) Hg) as H1.
  destruct (Neo.merge_nodes Builder.song_node pair g b) as [g1 t1].
  pose proof (set_track_names_unique snd
                (λ x : Builder.row * nat, Builder.track_name x.1) _ t1 H1) as H2.
  pose proof (merge_nodes_unique (λ x : Builder.row * nat, Builder.artist_node x.1)
                pair _ t1 (λ _, eq_refl) H2) as H3.
  destruct (Neo.merge_nodes (λ x, Builder.artist_node x.1) pair _ t1) as [g3 t3].
  pose proof (merge_nodes_unique (λ x : Builder.row * nat * nat, Builder.genre_node x.1.1)
                pair _ t3 (λ _, eq_refl) H3) as H4.
  destruct (Neo.merge_nodes (λ x, Builder.genre_node x.1.1) pair _ t3) as [g4 t4].
  pose proof (merge_rels_unique Builder.by_artist _ t4 H4) as H5.
  destruct (Neo.merge_rels Builder.by_artist _ t4) as [g5 t5].
  pose proof (merge_rels_unique Builder.in_genre _ t5 H5) as H6.
  destruct (Neo.merge_rels Builder.in_genre _ t5) as [g6 t6].
  pose proof (merge_rels_unique Builder.plays_genre _ t6 H6) as H7.
  by destruct (Neo.merge_rels Builder.plays_genre _ t6) as [g7 t7].
Qed.

Lemma build_unique g cursor : unique g → unique (Builder.build g cursor).
Proof.
  rewrite build_batches. generalize (batches cursor) as bs. intros bs. revert g.
  induction bs as [|b bs IH]; intros g Hg; [done|].
  simpl. by apply IH, insert_batch_unique.
Qed.

Lemma unique_artist_names g : NoDup (keys g) → NoDup (artist_names g).
Proof.
  unfold keys, artist_names. induction (Neo.nodes g) as [|n ns IH]; [constructor|].
  rewrite fmap_cons. intros [Hn Hns]%NoDup_cons. specialize (IH Hns).
  destruct n as [tid tn|name|name]; simpl; try done.
  apply NoDup_cons. split; [|done].
  intros (m & Hm & Hname)%list_elem_of_omap. apply Hn.
  destruct m; try done. injection Hname as ->.
  by apply (list_elem_of_fmap_2 Neo.key_of) in Hm.
Qed.

(** Every graph the builder makes from an empty store has unique artist
    names. *)
Lemma built_artist_names_unique cursor :
  NoDup (artist_names (Builder.build Neo.empty cursor)).
Proof.
  apply unique_artist_names, (build_unique Neo.empty cursor).
  split; constructor.
Qed.

(** ** Hybrid Recommender: the seed is not its own peer *)

Lemma NoDup_artist_names_lookup g i j name :
  NoDup (artist_names g) →
  Neo.nodes g !! i = Some (Neo.Artist name) →
  Neo.nodes g !! j = Some (Neo.Artist name) →
  i = j.
Proof.
  unfold artist_names. generalize (Neo.nodes g) as ns. clear g.
  intros ns. revert i j. induction ns as [|n ns IH]; intros i j Hnd Hi Hj; [done|].
  assert (∀ k, ns !! k = Some (Neo.Artist name) →
               name ∈ omap (λ n, match n with Neo.Artist a => Some a | _ => None end) ns)
    as Hin.
  { intros k Hk. apply list_elem_of_omap. exists (Neo.Artist name).
    split; [|done]. by eapply list_elem_of_lookup_2. }
  destruct i as [|i], j as [|j]; simpl in *.
  - done.
  - injection Hi as ->. simpl in Hnd. apply NoDup_cons in Hnd as [Hnd _].
    destruct Hnd. by eapply Hin.
  - injection Hj as ->. simpl in Hnd. apply NoDup_cons in Hnd as [Hnd _].
    destruct Hnd. by eapply Hin.
  - f_equal. apply IH; [|done..].
    destruct n; simpl in Hnd; [done| |done]. by apply NoDup_cons in Hnd as [_ ?].
Qed.

Lemma peers_exclude_seed (g : Neo.graph) (artist_name : string) :
  NoDup (artist_names g) →
  ∀ p, p ∈ Recommender.get_similar_artists g artist_name →
       Recommender.artist p ≠ artist_name.
Proof.
  intros Hnd p Hp%elem_of_get_similar_artists.
  apply elem_of_collect_genres in Hp as (b & Hb & -> & _).
  unfold Recommender.where_other_not_seed in Hb.
  apply list_elem_of_filter in Hb as [Hne Hb].
  unfold Recommender.match_other in Hb.
  apply list_elem_of_bind in Hb as (s & Hb & Hs).
  apply list_elem_of_bind in Hb as (r & Hb & _).
  destruct (decide _) as [_|]; [|by apply elem_of_nil in Hb].
  destruct (Recommender.artist_at g (Neo.src r)) as [name|] eqn:Hother;
    [|by apply elem_of_nil in Hb].
  apply list_elem_of_singleton in Hb as ->. simpl in *.
  unfold Recommender.match_seed in Hs.
  apply list_elem_of_bind in Hs as (a & Hs & Ha).
  apply list_elem_of_bind in Hs as (r' & Hs & _).
  destruct (decide _) as [_|]; [|by apply elem_of_nil in Hs].
  destruct (Recommender.genre_at g (Neo.dst r')); [|by apply elem_of_nil in Hs].
  apply list_elem_of_singleton in Hs as ->. simpl in *.
  apply elem_of_find_nodes in Ha as (n & Ha & Hn).
  destruct n; simpl in Hn; try done. injection Hn as ->.
  unfold Recommender.artist_at in Hother.
  destruct (Neo.nodes g !! Neo.src r) as [[| |]|] eqn:Hsrc; try done.
  injection Hother as ->. intros ->.
  apply Hne. by eapply NoDup_artist_names_lookup.
Qed.

(** C3. Symmetry exclusion.  In a graph where no two [Artist] nodes have
    the same name (the name is the node's key), no peer returned for a
    seed artist carries the seed's name; in particular this holds, for
    every seed, in every graph the builder makes from an empty store. *)
Theorem seed_not_among_peers :
  (∀ (g : Neo.graph) (artist_name : string),
     NoDup (artist_names g) →
     ∀ p, p ∈ Recommender.get_similar_artists g artist_name →
          Recommender.artist p ≠ artist_name)
  ∧ (∀ (cursor : list Builder.doc) (artist_name : string) p,
       p ∈ Recommender.get_similar_artists (Builder.build Neo.empty cursor) artist_name →
       Recommender.artist p ≠ artist_name).
Proof.
  split.
  - apply peers_exclude_seed.
  - intros cursor artist_name. apply peers_exclude_seed, built_artist_names_unique.
Qed.

Lemma seed_not_among_peers_witness :
  let g := Builder.build Neo.empty scenario_docs in
  NoDup (artist_names g)
  ∧ Recommender.artist <$> Recommender.get_similar_artists g "A" = ["C"; "B"]
  ∧ ∀ p, p ∈ Recommender.get_similar_artists g "A" → Recommender.artist p ≠ "A".
Proof.
  intros g.
  assert (NoDup (artist_names g)) as Hnd
    by (apply (bool_decide_unpack _); vm_compute; exact I).
  split; [done|]. split; [reflexivity|].
  apply (proj1 seed_not_among_peers g "A" Hnd).
Defined.

(** ** Graph Builder: idempotence *)

(** C1. Idempotence.  Whatever the graph store holds, a second run of the
    builder over the same documents leaves the store exactly as the first
    run left it: the same nodes with the same properties and identities,
    and the same relationships, none added.  Starting from the empty
    store, the graph has no two nodes with the same label and key and no
    two relationships of the same type between the same nodes, after one
    run as after two. *)
Theorem graph_builder_idempotent :
  (∀ (g : Neo.graph) (cursor : list Builder.doc),
     Builder.build (Builder.build g cursor) cursor = Builder.build g cursor)
  ∧ (∀ cursor : list Builder.doc,
       NoDup (keys (Builder.build Neo.empty cursor))
       ∧ NoDup (Neo.rels (Builder.build Neo.empty cursor))).
Proof.
  split.
  - intros g cursor. rewrite !build_batches. apply batches_twice.
  - intros cursor. apply (build_unique Neo.empty cursor). split; constructor.
Qed.

(** * Further properties *)

(** ** Stripping and cleaning *)








(** ** Row Normalizer: what an artist list holds *)





(** ** Graph Builder: rows and batches *)











(** ** Graph Builder: what the graph holds *)
















